(** * wood_cutter: free-rectangle packing and greedy board purchase

    Shallow embedding of [src/wood_cutter.py]: the [Panel] class with its
    [try_place] method, [optimize_purchase], the grouping of the plan by
    board in [visualize_boards], and the counter of [print_shopping_list].
    Lists are [list]; tuples are products; the mutable panel and the local
    variables of the optimizer loop are threaded as explicit state;
    exceptions are a [Raise] result.  The progress bar ([tqdm]) has no
    bearing on the returned values and is left out.

    Widths, heights and costs are read as Python integers, [Z], whose
    arithmetic is exact; the theorems are about the program on integer
    inputs.  Module [Float64] reads the same code on Python floats
    (binary64), and the runs at the end of the file show which statements
    do not carry over to them. *)

From Stdlib Require Import PrimFloat.
From Stdlib Require Import ZArith List Bool Lia Permutation Sorted QArith.

#[local] Set Warnings "-inexact-float".
Import ListNotations.

Local Open Scope Z_scope.

(** ** Python list primitives *)

(** [del l[i]] for an index [i] inside the list.  (Python raises IndexError
    outside; every index deleted by the program comes from [enumerate] over
    the same list, see [scan_index_in_range] and [indices_from_lt].) *)
Definition del_at {A : Type} (i : nat) (l : list A) : list A :=
  firstn i l ++ skipn (S i) l.

(** [l.sort(key=..., reverse=True)] and [sorted(l, reverse=True)]: a stable
    sort in descending key order (elements with equal keys keep their
    original relative order, which is what Python guarantees also with
    [reverse=True]). *)
Section SortDesc.
Context {A : Type} (key : A -> Z).

Fixpoint insert_desc (x : A) (l : list A) : list A :=
  match l with
  | [] => [x]
  | y :: l' => if key x >=? key y then x :: y :: l'
               else y :: insert_desc x l'
  end.

Fixpoint sort_desc (l : list A) : list A :=
  match l with
  | [] => []
  | x :: l' => insert_desc x (sort_desc l')
  end.
End SortDesc.

(** ** Panel *)

(** A free rectangle [(fx, fy, fw, fh)]. *)
Definition rect : Type := Z * Z * Z * Z.

(** A panel-local placement [(x, y, w, h, rotated)]. *)
Definition placement : Type := Z * Z * Z * Z * bool.

Record Panel : Type := mkPanel {
  width : Z;
  height : Z;
  free_rectangles : list rect;
  placements : list placement
}.

(** [Panel.__init__] *)
Definition Panel_init (w h : Z) : Panel :=
  {| width := w; height := h;
     free_rectangles := [(0, 0, w, h)];
     placements := [] |}.

(** The test [fw >= w and fh >= h] of the inner loop. *)
Definition fits (w h : Z) (r : rect) : bool :=
  let '(_, _, fw, fh) := r in (fw >=? w) && (fh >=? h).

(** The inner [for i, (fx, fy, fw, fh) in enumerate(self.free_rectangles)]
    up to its first accepted rectangle: the index and the rectangle. *)
Fixpoint scan (w h : Z) (i : nat) (rects : list rect) : option (nat * rect) :=
  match rects with
  | [] => None
  | r :: rest => if fits w h r then Some (i, r) else scan w h (S i) rest
  end.

(** The body executed on acceptance (lines 33-44). *)
Definition place_at (p : Panel) (i : nat) (r : rect) (w h : Z) (rotated : bool)
  : option placement * Panel :=
  let '(fx, fy, fw, fh) := r in
  let placements1 := placements p ++ [(fx, fy, w, h, rotated)] in
  let free1 := del_at i (free_rectangles p) in
  let free2 := if fw - w >? 0 then free1 ++ [(fx + w, fy, fw - w, h)]
               else free1 in
  let free3 := if fh - h >? 0 then free2 ++ [(fx, fy + h, fw, fh - h)]
               else free2 in
  (Some (fx, fy, w, h, rotated),
   {| width := width p; height := height p;
      free_rectangles := free3; placements := placements1 |}).

(** [Panel.try_place]: the returned value ([None] is Python's None) and the
    panel after the call. *)
Definition try_place (p : Panel) (piece_width piece_height : Z)
  : option placement * Panel :=
  match scan piece_width piece_height 0 (free_rectangles p) with
  | Some (i, r) => place_at p i r piece_width piece_height false
  | None =>
      match scan piece_height piece_width 0 (free_rectangles p) with
      | Some (i, r) => place_at p i r piece_height piece_width true
      | None => (None, p)
      end
  end.

(** ** optimize_purchase *)

Definition piece : Type := Z * Z.
Definition board : Type := Z * Z * Z.

(** A placement of the global cutting plan
    [(x, y, w, h, board_number, rotated)]. *)
Definition plan_entry : Type := Z * Z * Z * Z * nat * bool.

Definition area (p : piece) : Z := fst p * snd p.

(** Lines 65-68: [range(qty)] is empty for [qty <= 0]. *)
Fixpoint expand (required_pieces : list (Z * Z * Z)) : list piece :=
  match required_pieces with
  | [] => []
  | (w, h, qty) :: rest => repeat (w, h) (Z.to_nat qty) ++ expand rest
  end.

(** Lines 88-93: the simulation loop over [enumerate(pieces)] on one panel. *)
Fixpoint simulate (panel : Panel) (i : nat) (pieces : list piece)
  (packed_indices : list nat) : Panel * list nat :=
  match pieces with
  | [] => (panel, packed_indices)
  | (pw, ph) :: rest =>
      match try_place panel pw ph with
      | (Some _, panel') => simulate panel' (S i) rest (packed_indices ++ [i])
      | (None, panel') => simulate panel' (S i) rest packed_indices
      end
  end.

(** Line 97: [sum(pieces[i][0] * pieces[i][1] for i in packed_indices)]. *)
Definition packed_area (pieces : list piece) (packed_indices : list nat) : Z :=
  fold_left Z.add (map (fun i => area (nth i pieces (0, 0))) packed_indices) 0.

Inductive error : Type :=
| UnpackablePiece      (* the ValueError of line 106 *)
| ZeroDivisionError    (* [cost / 0] on line 98 *)
| OverflowError.       (* [cost / packed_area] outside the float range *)

Inductive result (A : Type) : Type :=
| Ok (a : A)
| Raise (e : error).
Arguments Ok {A} a.
Arguments Raise {A} e.

(** Loop-carried variables of the [while pieces] loop. *)
Record state : Type := mkState {
  pieces : list piece;
  total_cost : Z;
  board_solution : list board;
  cutting_plan : list plan_entry;
  board_count : nat
}.

Inductive outcome : Type :=
| Returned (cutting_plan : list plan_entry) (board_solution : list board)
           (total_cost : Z)
| Raised (e : error)
| OutOfFuel.

Section Optimizer.
(** Python's true division of integers yields a float and the candidates
    are compared with [<] on floats.  The float type, the quotient for a
    non-zero divisor ([None] when it is outside the float range) and the
    comparison are kept abstract. *)
Variable eff : Type.
Variable truediv : Z -> Z -> option eff.
Variable eff_ltb : eff -> eff -> bool.

(** [cost / packed_area] *)
Definition py_truediv (cost packed : Z) : result eff :=
  if packed =? 0 then Raise ZeroDivisionError
  else match truediv cost packed with
       | Some e => Ok e
       | None => Raise OverflowError
       end.

(** [(best_efficiency, best_board, best_panel, best_packed_indices)];
    [None] while the four variables are None. *)
Definition best : Type := option (eff * board * Panel * list nat).

(** Line 99: [best_efficiency is None or efficiency < best_efficiency]. *)
Definition improves (efficiency : eff) (b : best) : bool :=
  match b with
  | None => true
  | Some (best_efficiency, _, _, _) => eff_ltb efficiency best_efficiency
  end.

(** Lines 85-103: [for board in available_boards]. *)
Fixpoint board_loop (pieces : list piece) (boards : list board) (b : best)
  : result best :=
  match boards with
  | [] => Ok b
  | (board_width, board_height, cost) :: rest =>
      let '(panel, packed_indices) :=
        simulate (Panel_init board_width board_height) 0 pieces [] in
      match packed_indices with
      | [] => board_loop pieces rest b
      | _ :: _ =>
          match py_truediv cost (packed_area pieces packed_indices) with
          | Raise e => Raise e
          | Ok efficiency =>
              if improves efficiency b
              then board_loop pieces rest
                     (Some (efficiency, (board_width, board_height, cost),
                            panel, packed_indices))
              else board_loop pieces rest b
          end
      end
  end.

(** Lines 116-119. *)
Definition tag (board_count : nat) (pl : placement) : plan_entry :=
  let '(x, y, w, h, rotated) := pl in (x, y, w, h, board_count, rotated).

(** Lines 121-123: [for i in sorted(best_packed_indices, reverse=True):
    del pieces[i]]. *)
Definition remove_packed (pieces : list piece) (packed_indices : list nat)
  : list piece :=
  fold_left (fun ps i => del_at i ps)
            (sort_desc Z.of_nat packed_indices) pieces.

(** One pass through the body of [while pieces] (lines 79-124). *)
Definition iteration (available_boards : list board) (st : state)
  : result state :=
  match board_loop (pieces st) available_boards None with
  | Raise e => Raise e
  | Ok None => Raise UnpackablePiece
  | Ok (Some (_, (board_width, board_height, cost), best_panel,
              best_packed_indices)) =>
      let board_count1 := S (board_count st) in
      Ok {| pieces := remove_packed (pieces st) best_packed_indices;
            total_cost := total_cost st + cost;
            board_solution :=
              board_solution st ++ [(board_width, board_height, cost)];
            cutting_plan :=
              cutting_plan st ++ map (tag board_count1) (placements best_panel);
            board_count := board_count1 |}
  end.

(** [while pieces: ...] followed by the return of line 126. *)
Fixpoint while_loop (fuel : nat) (available_boards : list board) (st : state)
  : outcome :=
  match pieces st with
  | [] => Returned (cutting_plan st) (board_solution st) (total_cost st)
  | _ :: _ =>
      match fuel with
      | O => OutOfFuel
      | S fuel' =>
          match iteration available_boards st with
          | Raise e => Raised e
          | Ok st' => while_loop fuel' available_boards st'
          end
      end
  end.

(** Lines 64-75: the state on entry to the loop. *)
Definition initial_state (required_pieces : list (Z * Z * Z)) : state :=
  {| pieces := sort_desc area (expand required_pieces);
     total_cost := 0;
     board_solution := [];
     cutting_plan := [];
     board_count := 0 |}.

(** [optimize_purchase]; the loop is given one unit of fuel per pending
    piece ([while_loop_fuel_enough] shows that this never runs out). *)
Definition optimize_purchase (required_pieces : list (Z * Z * Z))
  (available_boards : list board) : outcome :=
  let st := initial_state required_pieces in
  while_loop (length (pieces st)) available_boards st.

(** States the loop passes through: [reaches boards st st'] when the loop
    started in [st] arrives at its head in [st'] after some iterations. *)
Inductive reaches (available_boards : list board) : state -> state -> Prop :=
| reaches_refl st : reaches available_boards st st
| reaches_step st st1 st2 :
    pieces st <> [] ->
    iteration available_boards st = Ok st1 ->
    reaches available_boards st1 st2 ->
    reaches available_boards st st2.

End Optimizer.

(** ** Vocabulary of the statements *)

(** The piece a placement stands for: its dimensions before rotation. *)
Definition unrotated (pl : placement) : piece :=
  let '(_, _, w, h, rotated) := pl in if rotated then (h, w) else (w, h).

(** The same for an entry of the cutting plan. *)
Definition recovered (e : plan_entry) : piece :=
  let '(_, _, w, h, _, rotated) := e in if rotated then (h, w) else (w, h).

Definition ordinal (e : plan_entry) : nat :=
  let '(_, _, _, _, b, _) := e in b.

(** Which pieces of a sequence a panel accepts, one flag per piece. *)
Fixpoint placed_flags (panel : Panel) (ps : list piece) : list bool :=
  match ps with
  | [] => []
  | (pw, ph) :: rest =>
      match try_place panel pw ph with
      | (Some _, panel') => true :: placed_flags panel' rest
      | (None, panel') => false :: placed_flags panel' rest
      end
  end.

(** Positions of the raised flags, counted from [i]. *)
Fixpoint indices_from (i : nat) (flags : list bool) : list nat :=
  match flags with
  | [] => []
  | true :: fl => i :: indices_from (S i) fl
  | false :: fl => indices_from (S i) fl
  end.

(** The elements of a list whose flag is raised. *)
Fixpoint select {A : Type} (flags : list bool) (l : list A) : list A :=
  match flags, l with
  | true :: fl, x :: l' => x :: select fl l'
  | false :: fl, _ :: l' => select fl l'
  | _, _ => []
  end.

(** The simulation of lines 87-93 for one board type. *)
Definition packs (ps : list piece) (bd : board) : Panel * list nat :=
  let '(board_width, board_height, _) := bd in
  simulate (Panel_init board_width board_height) 0 ps [].

Definition cost_of (bd : board) : Z := let '(_, _, cost) := bd in cost.

(** Line 94: the board packed at least one pending piece. *)
Definition packs_some (ps : list piece) (bd : board) : bool :=
  match snd (packs ps bd) with [] => false | _ :: _ => true end.

(** The candidates that survive line 94, in catalog order. *)
Definition survivors (ps : list piece) (boards : list board) : list board :=
  filter (packs_some ps) boards.

Definition board_flags (ps : list piece) (bd : board) : list bool :=
  let '(board_width, board_height, _) := bd in
  placed_flags (Panel_init board_width board_height) ps.

(** The three possible courses of a call, the first match deciding. *)
Inductive try_place_cases (p : Panel) (pw ph : Z)
  : option placement * Panel -> Prop :=
| tp_unrotated i r :
    scan pw ph 0 (free_rectangles p) = Some (i, r) ->
    try_place_cases p pw ph (place_at p i r pw ph false)
| tp_rotated i r :
    scan pw ph 0 (free_rectangles p) = None ->
    scan ph pw 0 (free_rectangles p) = Some (i, r) ->
    try_place_cases p pw ph (place_at p i r ph pw true)
| tp_nofit :
    scan pw ph 0 (free_rectangles p) = None ->
    scan ph pw 0 (free_rectangles p) = None ->
    try_place_cases p pw ph (None, p).

(** What a committing iteration does to the loop variables. *)
Record commits (boards : list board) (st st' : state) (bd : board) : Prop := {
  commit_board : In bd boards;
  commit_packs : snd (packs (pieces st) bd) <> [];
  commit_pieces :
    pieces st' = select (map negb (board_flags (pieces st) bd)) (pieces st);
  commit_plan :
    cutting_plan st' =
    cutting_plan st ++
    map (tag (S (board_count st))) (placements (fst (packs (pieces st) bd)));
  commit_solution : board_solution st' = board_solution st ++ [bd];
  commit_cost : total_cost st' = total_cost st + cost_of bd;
  commit_count : board_count st' = S (board_count st)
}.

Definition sum_costs (bs : list board) : Z :=
  fold_right Z.add 0 (map cost_of bs).

Definition max_ordinal (cp : list plan_entry) : nat :=
  fold_right Nat.max 0%nat (map ordinal cp).

Definition accounts (st : state) : Prop :=
  total_cost st = sum_costs (board_solution st) /\
  board_count st = length (board_solution st) /\
  max_ordinal (cutting_plan st) = board_count st.

Definition rect_within (W H : Z) (r : rect) : Prop :=
  let '(x, y, w, h) := r in 0 <= x /\ 0 <= y /\ x + w <= W /\ y + h <= H.

Definition placement_within (W H : Z) (pl : placement) : Prop :=
  let '(x, y, w, h, _) := pl in
  0 <= x /\ 0 <= y /\ x + w <= W /\ y + h <= H.

Definition panel_within (p : Panel) : Prop :=
  Forall (rect_within (width p) (height p)) (free_rectangles p) /\
  Forall (placement_within (width p) (height p)) (placements p).

(** The entry lies on the board that [board_solution] lists at its
    ordinal (ordinals count from 1). *)
Definition entry_within (bs : list board) (e : plan_entry) : Prop :=
  let '(x, y, w, h, board_number, _) := e in
  (1 <= board_number)%nat /\
  exists boardWidth boardHeight cost,
    nth_error bs (board_number - 1) = Some (boardWidth, boardHeight, cost) /\
    0 <= x /\ 0 <= y /\ x + w <= boardWidth /\ y + h <= boardHeight.

Definition nonneg_piece (p : piece) : Prop := 0 <= fst p /\ 0 <= snd p.

Definition plan_within (st : state) : Prop :=
  Forall nonneg_piece (pieces st) /\
  board_count st = length (board_solution st) /\
  Forall (entry_within (board_solution st)) (cutting_plan st).

(** Python's [sum]. *)
Definition sum_Z (l : list Z) : Z := fold_left Z.add l 0.

(** Width x height of the piece a placement stands for, before rotation. *)
Definition original_area (pl : placement) : Z :=
  let '(_, _, w, h, rotated) := pl in if rotated then h * w else w * h.

(** The area a board type packs of the pending pieces: the sum, over the
    pieces its simulation places, of their width x height before
    rotation. *)
Definition packed_pieces_area (ps : list piece) (bd : board) : Z :=
  sum_Z (map original_area (placements (fst (packs ps bd)))).

(** What [try_place] does, by its returned value: the accepted rectangle
    splits the free list, and the orientation is the first that fits. *)
Definition first_fit_outcome (p : Panel) (pw ph : Z)
  (res : option placement * Panel) : Prop :=
  match res with
  | (Some (x, y, w, h, rotated), p') =>
      exists l1 l2 fx fy fw fh,
        free_rectangles p = l1 ++ (fx, fy, fw, fh) :: l2 /\
        Forall (fun r => fits w h r = false) l1 /\
        fw >= w /\ fh >= h /\
        x = fx /\ y = fy /\
        ((rotated = false /\ w = pw /\ h = ph) \/
         (rotated = true /\ w = ph /\ h = pw /\
          Forall (fun r => fits pw ph r = false) (free_rectangles p))) /\
        free_rectangles p' =
          l1 ++ l2 ++
          (if fw - w >? 0 then [(fx + w, fy, fw - w, h)] else []) ++
          (if fh - h >? 0 then [(fx, fy + h, fw, fh - h)] else []) /\
        placements p' = placements p ++ [(x, y, w, h, rotated)] /\
        width p' = width p /\ height p' = height p
  | (None, p') =>
      Forall (fun r => fits pw ph r = false) (free_rectangles p) /\
      Forall (fun r => fits ph pw r = false) (free_rectangles p)
  end.

Section Vocabulary.
Variable eff : Type.
Variable truediv : Z -> Z -> option eff.
Variable eff_ltb : eff -> eff -> bool.

(** Line 98 for one board: [cost / packed_area]. *)
Definition efficiency_of (ps : list piece) (bd : board) : result eff :=
  py_truediv eff truediv (cost_of bd) (packed_area ps (snd (packs ps bd))).

(** What the four [best_*] variables hold after the board loop. *)
Definition chosen_from (ps : list piece) (boards : list board) (b : best eff)
  : Prop :=
  match b with
  | None => True
  | Some (e, bd, panel, idx) =>
      In bd boards /\ packs_some ps bd = true /\
      panel = fst (packs ps bd) /\ idx = snd (packs ps bd) /\
      efficiency_of ps bd = Ok e
  end.

(** [b] is the first of the candidates [cands] with the lowest
    efficiency. *)
Definition first_lowest (ps : list piece) (cands : list board) (b : best eff)
  : Prop :=
  match b with
  | None => cands = []
  | Some (e, bd, _, _) =>
      exists k,
        nth_error cands k = Some bd /\
        efficiency_of ps bd = Ok e /\
        forall j bdj,
          nth_error cands j = Some bdj ->
          exists ej,
            efficiency_of ps bdj = Ok ej /\
            ((j < k)%nat -> eff_ltb e ej = true) /\
            ((k < j)%nat -> eff_ltb ej e = false)
  end.

End Vocabulary.

(** ** Exact rational arithmetic as an instance of the float operations *)

Definition Q_truediv (a b : Z) : option Q := Some (inject_Z a / inject_Z b)%Q.
Definition Q_ltb (a b : Q) : bool := negb (Qle_bool b a).

Definition optimize_purchase_Q := optimize_purchase Q Q_truediv Q_ltb.

(** ** visualize_boards: the grouping of the plan by board *)

(** Line 143, [boards[board_num].append(placement)], on the dictionary of
    line 140 whose keys are 1..total_boards: slot [k] of the list is the
    value of key [k + 1].  [None] is the KeyError of a board number that is
    not a key. *)
Definition group_append (boards : list (list plan_entry)) (e : plan_entry)
  : option (list (list plan_entry)) :=
  match ordinal e with
  | O => None
  | S k =>
      match nth_error boards k with
      | None => None
      | Some group => Some (firstn k boards ++ (group ++ [e]) :: skipn (S k) boards)
      end
  end.

(** Lines 141-143: [for placement in cutting_plan]. *)
Fixpoint group_loop (boards : list (list plan_entry)) (plan : list plan_entry)
  : option (list (list plan_entry)) :=
  match plan with
  | [] => Some boards
  | e :: rest =>
      match group_append boards e with
      | None => None
      | Some boards' => group_loop boards' rest
      end
  end.

Inductive draw_error : Type :=
| SubplotsValueError   (* [plt.subplots] asked for zero rows, line 136 *)
| BoardKeyError.       (* [boards[board_num]] for a missing key, line 143 *)

(** Lines 135-143 of [visualize_boards]: the placements to draw on each
    board.  Before the grouping, line 136 asks matplotlib for
    [total_boards] rows of axes, which raises ValueError when there is no
    board.  (The drawing itself, lines 137-138 and 144-175, is matplotlib's
    and is not modelled.) *)
Definition group_placements (board_solution : list board)
  (cutting_plan : list plan_entry) : draw_error + list (list plan_entry) :=
  match length board_solution with
  | O => inl SubplotsValueError
  | S _ =>
      match group_loop (repeat [] (length board_solution)) cutting_plan with
      | None => inl BoardKeyError
      | Some groups => inr groups
      end
  end.

(** ** print_shopping_list: the items of the counter *)

(** Equality of the tuples used as dictionary keys. *)
Definition board_eqb (a b : board) : bool :=
  let '(w1, h1, c1) := a in
  let '(w2, h2, c2) := b in
  (w1 =? w2) && (h1 =? h2) && (c1 =? c2).

(** One update [counts[bd] += 1] of a [Counter]: a dictionary, so the keys
    stay in the order of their first insertion. *)
Fixpoint counter_incr (bd : board) (counts : list (board * nat))
  : list (board * nat) :=
  match counts with
  | [] => [(bd, 1%nat)]
  | (k, n) :: rest =>
      if board_eqb k bd then (k, S n) :: rest
      else (k, n) :: counter_incr bd rest
  end.

(** Line 184: [Counter(board_solution)], as the [items()] that the loop of
    lines 186-188 prints, one line each.  (The formatting of the lines is
    not modelled.) *)
Definition Counter (l : list board) : list (board * nat) :=
  fold_left (fun counts bd => counter_incr bd counts) l [].

(** Equality of boards is decidable. *)
Definition board_eq_dec (a b : board) : {a = b} + {a <> b}.
Proof. repeat decide equality. Defined.

(** ** Vocabulary of the further statements *)

Definition rect_area (r : rect) : Z := let '(_, _, w, h) := r in w * h.

Definition placement_area (pl : placement) : Z :=
  let '(_, _, w, h, _) := pl in w * h.

(** Free area plus placed area of a panel. *)
Definition panel_area (p : Panel) : Z :=
  sum_Z (map rect_area (free_rectangles p)) +
  sum_Z (map placement_area (placements p)).

(** Two rectangles share interior points. *)
Definition overlap (a b : rect) : Prop :=
  let '(x1, y1, w1, h1) := a in
  let '(x2, y2, w2, h2) := b in
  x1 < x2 + w2 /\ x2 < x1 + w1 /\ y1 < y2 + h2 /\ y2 < y1 + h1.

(** [a] lies inside [b]. *)
Definition inside (b a : rect) : Prop :=
  let '(x1, y1, w1, h1) := a in
  let '(x2, y2, w2, h2) := b in
  x2 <= x1 /\ x1 + w1 <= x2 + w2 /\ y2 <= y1 /\ y1 + h1 <= y2 + h2.

Definition pairwise_disjoint (l : list rect) : Prop :=
  ForallOrdPairs (fun a b => ~ overlap a b) l.

(** The rectangle a placement covers. *)
Definition footprint (pl : placement) : rect :=
  let '(x, y, w, h, _) := pl in (x, y, w, h).

Definition entry_rect (e : plan_entry) : rect :=
  let '(x, y, w, h, _, _) := e in (x, y, w, h).

(** Everything a panel keeps track of: the placed and the free rectangles. *)
Definition regions (p : Panel) : list rect :=
  map footprint (placements p) ++ free_rectangles p.

Definition nonneg_rect (r : rect) : Prop :=
  let '(_, _, w, h) := r in 0 <= w /\ 0 <= h.

Definition positive_piece (p : piece) : Prop := 0 < fst p /\ 0 < snd p.

(** The piece fits an empty board of this type in one of the two
    orientations. *)
Definition fits_board (p : piece) (bd : board) : bool :=
  let '(board_width, board_height, _) := bd in
  fits (fst p) (snd p) (0, 0, board_width, board_height) ||
  fits (snd p) (fst p) (0, 0, board_width, board_height).

(** Entries of one board do not overlap each other. *)
Definition plan_disjoint (cp : list plan_entry) : Prop :=
  ForallOrdPairs (fun e1 e2 => ordinal e1 = ordinal e2 ->
                               ~ overlap (entry_rect e1) (entry_rect e2)) cp.

(** Total price of the items of a shopping list. *)
Definition items_cost (items : list (board * nat)) : Z :=
  fold_right Z.add 0 (map (fun it => Z.of_nat (snd it) * cost_of (fst it)) items).

Definition items_count (items : list (board * nat)) : nat :=
  fold_right Nat.add 0%nat (map snd items).

(** The piece is no wider and no higher than the board, as it is or turned
    by 90 degrees. *)
Definition fits_on (p : piece) (bd : board) : Prop :=
  let '(board_width, board_height, _) := bd in
  (fst p <= board_width /\ snd p <= board_height) \/
  (snd p <= board_width /\ fst p <= board_height).

(** Some board type of the catalog fits the piece. *)
Definition fits_some (boards : list board) (p : piece) : bool :=
  existsb (fits_board p) boards.

(** The quotient of the cost of each catalog board by any positive area
    is within the float range.  (Python's integer division raises
    OverflowError only for a quotient of about 1.8e308 or more, so this
    holds of it whenever the costs are below that.) *)
Definition costs_in_range {eff : Type} (truediv : Z -> Z -> option eff)
  (boards : list board) : Prop :=
  Forall (fun bd => forall packed, 0 < packed ->
                    truediv (cost_of bd) packed <> None) boards.

(** The solution holds catalog boards, and the plan lists the boards
    1..board_count in this order, each at least once. *)
Definition plan_shape (boards : list board) (st : state) : Prop :=
  Forall (fun bd => In bd boards) (board_solution st) /\
  board_count st = length (board_solution st) /\
  StronglySorted le (map ordinal (cutting_plan st)) /\
  (forall n, In n (map ordinal (cutting_plan st)) <->
             (1 <= n <= board_count st)%nat).

Definition placeable (boards : list board) (st : state) : Prop :=
  Forall (fun p => positive_piece p /\ fits_some boards p = true) (pieces st).

(** The distinct boards of a list, in the order of their first occurrence. *)
Fixpoint first_occurrences (l : list board) : list board :=
  match l with
  | [] => []
  | x :: rest =>
      x :: filter (fun y => negb (board_eqb x y)) (first_occurrences rest)
  end.

(** How often a board occurs in a list. *)
Definition occurrences (bd : board) (l : list board) : nat :=
  length (filter (board_eqb bd) l).

(** Areas do not increase along the list. *)
Definition area_desc (l : list piece) : Prop :=
  ForallOrdPairs (fun p q => area q <= area p) l.

(** Among the entries of one board, areas do not increase along the plan. *)
Definition plan_area_desc (cp : list plan_entry) : Prop :=
  ForallOrdPairs (fun e1 e2 => ordinal e1 = ordinal e2 ->
                               rect_area (entry_rect e2)
                               <= rect_area (entry_rect e1)) cp.

(** * The same program on float inputs

    Widths, heights and costs may also be Python floats.  The definitions
    below are the definitions above with binary64 arithmetic and
    comparisons in place of the integer ones ([0] is then [0.0], which
    Python's mixed comparisons and additions treat alike).  They serve to
    run the program on floats where a statement depends on arithmetic
    being exact. *)

Module Float64.
Local Open Scope float_scope.

Definition rect : Type := float * float * float * float.

Definition placement : Type := float * float * float * float * bool.

Record Panel : Type := mkPanel {
  width : float;
  height : float;
  free_rectangles : list rect;
  placements : list placement
}.

Definition Panel_init (w h : float) : Panel :=
  {| width := w; height := h;
     free_rectangles := [(0, 0, w, h)];
     placements := [] |}.

Definition fits (w h : float) (r : rect) : bool :=
  let '(_, _, fw, fh) := r in (w <=? fw) && (h <=? fh).

Fixpoint scan (w h : float) (i : nat) (rects : list rect)
  : option (nat * rect) :=
  match rects with
  | [] => None
  | r :: rest => if fits w h r then Some (i, r) else scan w h (S i) rest
  end.

Definition place_at (p : Panel) (i : nat) (r : rect) (w h : float)
  (rotated : bool) : option placement * Panel :=
  let '(fx, fy, fw, fh) := r in
  let placements1 := placements p ++ [(fx, fy, w, h, rotated)] in
  let free1 := del_at i (free_rectangles p) in
  let free2 := if 0 <? fw - w then free1 ++ [(fx + w, fy, fw - w, h)]
               else free1 in
  let free3 := if 0 <? fh - h then free2 ++ [(fx, fy + h, fw, fh - h)]
               else free2 in
  (Some (fx, fy, w, h, rotated),
   {| width := width p; height := height p;
      free_rectangles := free3; placements := placements1 |}).

Definition try_place (p : Panel) (piece_width piece_height : float)
  : option placement * Panel :=
  match scan piece_width piece_height 0 (free_rectangles p) with
  | Some (i, r) => place_at p i r piece_width piece_height false
  | None =>
      match scan piece_height piece_width 0 (free_rectangles p) with
      | Some (i, r) => place_at p i r piece_height piece_width true
      | None => (None, p)
      end
  end.

Definition piece : Type := float * float.

Definition board : Type := float * float * float.

Definition plan_entry : Type := float * float * float * float * nat * bool.

Definition area (p : piece) : float := fst p * snd p.

Fixpoint expand (required_pieces : list (float * float * Z)) : list piece :=
  match required_pieces with
  | [] => []
  | (w, h, qty) :: rest => repeat (w, h) (Z.to_nat qty) ++ expand rest
  end.

Fixpoint insert_desc_area (x : piece) (l : list piece) : list piece :=
  match l with
  | [] => [x]
  | y :: l' => if area y <=? area x then x :: y :: l'
               else y :: insert_desc_area x l'
  end.

Fixpoint sort_desc_area (l : list piece) : list piece :=
  match l with
  | [] => []
  | x :: l' => insert_desc_area x (sort_desc_area l')
  end.

Fixpoint simulate (panel : Panel) (i : nat) (pieces : list piece)
  (packed_indices : list nat) : Panel * list nat :=
  match pieces with
  | [] => (panel, packed_indices)
  | (pw, ph) :: rest =>
      match try_place panel pw ph with
      | (Some _, panel') => simulate panel' (S i) rest (packed_indices ++ [i])
      | (None, panel') => simulate panel' (S i) rest packed_indices
      end
  end.

Definition packed_area (pieces : list piece) (packed_indices : list nat)
  : float :=
  fold_left PrimFloat.add
            (map (fun i => area (nth i pieces (0, 0))) packed_indices) 0.

(** [cost / packed_area] on floats: a zero divisor raises, anything else
    gives a float (possibly an infinity). *)
Definition py_truediv (cost packed : float) : result float :=
  if packed =? 0 then Raise ZeroDivisionError else Ok (cost / packed).

Definition best : Type := option (float * board * Panel * list nat).

Definition improves (efficiency : float) (b : best) : bool :=
  match b with
  | None => true
  | Some (best_efficiency, _, _, _) => efficiency <? best_efficiency
  end.

Fixpoint board_loop (pieces : list piece) (boards : list board) (b : best)
  : result best :=
  match boards with
  | [] => Ok b
  | (board_width, board_height, cost) :: rest =>
      let '(panel, packed_indices) :=
        simulate (Panel_init board_width board_height) 0 pieces [] in
      match packed_indices with
      | [] => board_loop pieces rest b
      | _ :: _ =>
          match py_truediv cost (packed_area pieces packed_indices) with
          | Raise e => Raise e
          | Ok efficiency =>
              if improves efficiency b
              then board_loop pieces rest
                     (Some (efficiency, (board_width, board_height, cost),
                            panel, packed_indices))
              else board_loop pieces rest b
          end
      end
  end.

Definition tag (board_count : nat) (pl : placement) : plan_entry :=
  let '(x, y, w, h, rotated) := pl in (x, y, w, h, board_count, rotated).

Definition remove_packed (pieces : list piece) (packed_indices : list nat)
  : list piece :=
  fold_left (fun ps i => del_at i ps)
            (sort_desc Z.of_nat packed_indices) pieces.

Record state : Type := mkState {
  pieces : list piece;
  total_cost : float;
  board_solution : list board;
  cutting_plan : list plan_entry;
  board_count : nat
}.

Inductive outcome : Type :=
| Returned (cutting_plan : list plan_entry) (board_solution : list board)
           (total_cost : float)
| Raised (e : error)
| OutOfFuel.

Definition iteration (available_boards : list board) (st : state)
  : result state :=
  match board_loop (pieces st) available_boards None with
  | Raise e => Raise e
  | Ok None => Raise UnpackablePiece
  | Ok (Some (_, (board_width, board_height, cost), best_panel,
              best_packed_indices)) =>
      let board_count1 := S (board_count st) in
      Ok {| pieces := remove_packed (pieces st) best_packed_indices;
            total_cost := total_cost st + cost;
            board_solution :=
              board_solution st ++ [(board_width, board_height, cost)];
            cutting_plan :=
              cutting_plan st ++ map (tag board_count1) (placements best_panel);
            board_count := board_count1 |}
  end.

Fixpoint while_loop (fuel : nat) (available_boards : list board) (st : state)
  : outcome :=
  match pieces st with
  | [] => Returned (cutting_plan st) (board_solution st) (total_cost st)
  | _ :: _ =>
      match fuel with
      | O => OutOfFuel
      | S fuel' =>
          match iteration available_boards st with
          | Raise e => Raised e
          | Ok st' => while_loop fuel' available_boards st'
          end
      end
  end.

Definition initial_state (required_pieces : list (float * float * Z)) : state :=
  {| pieces := sort_desc_area (expand required_pieces);
     total_cost := 0;
     board_solution := [];
     cutting_plan := [];
     board_count := 0 |}.

Definition optimize_purchase (required_pieces : list (float * float * Z))
  (available_boards : list board) : outcome :=
  let st := initial_state required_pieces in
  while_loop (length (pieces st)) available_boards st.

End Float64.

(** * Verification *)

(** ** The scenarios of the specification *)

Example scenario_A :
  optimize_purchase_Q [(100, 50, 1)] [(200, 200, 10)]
  = Returned [(0, 0, 100, 50, 1%nat, false)] [(200, 200, 10)] 10.
Proof. vm_compute. reflexivity. Qed.

Example scenario_B :
  optimize_purchase_Q [(80, 120, 1)] [(130, 90, 5)]
  = Returned [(0, 0, 120, 80, 1%nat, true)] [(130, 90, 5)] 5.
Proof. vm_compute. reflexivity. Qed.

Example scenario_D :
  optimize_purchase_Q [(5000, 5000, 1)] [(200, 200, 10)]
  = Raised UnpackablePiece.
Proof. vm_compute. reflexivity. Qed.

(** ** Facts about the list primitives *)

Lemma del_at_middle {A : Type} (l1 l2 : list A) (x : A) :
  del_at (length l1) (l1 ++ x :: l2) = l1 ++ l2.
Proof.
  unfold del_at.
  rewrite firstn_app, firstn_all, Nat.sub_diag, firstn_O, app_nil_r.
  replace (S (length l1)) with (length (l1 ++ [x]))
    by (rewrite length_app; simpl; lia).
  replace (l1 ++ x :: l2) with ((l1 ++ [x]) ++ l2)
    by (rewrite <- app_assoc; reflexivity).
  rewrite skipn_app, skipn_all, Nat.sub_diag. reflexivity.
Qed.

Lemma insert_desc_perm {A : Type} (key : A -> Z) (x : A) (l : list A) :
  Permutation (x :: l) (insert_desc key x l).
Proof.
  induction l as [|y l IH]; simpl; [reflexivity|].
  destruct (key x >=? key y); [reflexivity|].
  rewrite perm_swap. constructor. exact IH.
Qed.

Lemma sort_desc_perm {A : Type} (key : A -> Z) (l : list A) :
  Permutation l (sort_desc key l).
Proof.
  induction l as [|x l IH]; simpl; [constructor|].
  rewrite <- insert_desc_perm. constructor. exact IH.
Qed.

Lemma insert_desc_smallest {A : Type} (key : A -> Z) (x : A) (l : list A) :
  Forall (fun y => key x < key y) l -> insert_desc key x l = l ++ [x].
Proof.
  induction 1 as [|y l Hy _ IH]; simpl; [reflexivity|].
  destruct (Z.geb_spec (key x) (key y)); [lia|]. now rewrite IH.
Qed.

(** On a strictly increasing list the descending sort is the reversal. *)
Lemma sort_desc_increasing (l : list nat) :
  StronglySorted lt l -> sort_desc Z.of_nat l = rev l.
Proof.
  induction 1 as [|x l _ IH Hx]; simpl; [reflexivity|].
  rewrite IH. apply insert_desc_smallest.
  apply Forall_rev. eapply Forall_impl; [|exact Hx]. simpl. lia.
Qed.

(** ** Panel.try_place *)

Lemma scan_some w h i rects j r :
  scan w h i rects = Some (j, r) ->
  exists l1 l2, rects = l1 ++ r :: l2 /\ j = (i + length l1)%nat /\
                Forall (fun r' => fits w h r' = false) l1 /\
                fits w h r = true.
Proof.
  revert i. induction rects as [|r0 rest IH]; simpl; intros i H; [discriminate|].
  destruct (fits w h r0) eqn:E.
  - injection H as <- <-. exists [], rest. simpl. repeat split; auto.
  - destruct (IH _ H) as (l1 & l2 & -> & -> & Hl1 & Hr).
    exists (r0 :: l1), l2. simpl. repeat split; auto; lia.
Qed.

Lemma scan_none w h i rects :
  scan w h i rects = None <-> Forall (fun r => fits w h r = false) rects.
Proof.
  revert i. induction rects as [|r0 rest IH]; simpl; intros i.
  - split; auto.
  - destruct (fits w h r0) eqn:E.
    + split; [discriminate|]. intros H. inversion H; congruence.
    + rewrite IH. split; [auto|]. intros H. now inversion H.
Qed.

(** Every index delivered by the scan lies inside the list, so the
    [del self.free_rectangles[i]] of line 36 never raises. *)
Lemma scan_index_in_range w h rects j r :
  scan w h 0 rects = Some (j, r) -> (j < length rects)%nat.
Proof.
  intros H. destruct (scan_some _ _ _ _ _ _ H) as (l1 & l2 & -> & -> & _).
  rewrite length_app. simpl. lia.
Qed.

(** The panel after an accepted rectangle, in terms of the split of the free
    list around that rectangle. *)
Lemma place_at_split p l1 l2 fx fy fw fh w h rotated :
  free_rectangles p = l1 ++ (fx, fy, fw, fh) :: l2 ->
  place_at p (length l1) (fx, fy, fw, fh) w h rotated =
  (Some (fx, fy, w, h, rotated),
   {| width := width p; height := height p;
      free_rectangles :=
        l1 ++ l2 ++
        (if fw - w >? 0 then [(fx + w, fy, fw - w, h)] else []) ++
        (if fh - h >? 0 then [(fx, fy + h, fw, fh - h)] else []);
      placements := placements p ++ [(fx, fy, w, h, rotated)] |}).
Proof.
  intros Hfree. unfold place_at. rewrite Hfree, del_at_middle.
  do 2 f_equal.
  destruct (fw - w >? 0), (fh - h >? 0); simpl;
    rewrite <- ?app_assoc, ?app_nil_r; reflexivity.
Qed.

Lemma try_place_inv p pw ph : try_place_cases p pw ph (try_place p pw ph).
Proof.
  unfold try_place.
  destruct (scan pw ph 0 (free_rectangles p)) as [[i r]|] eqn:E1.
  - now apply tp_unrotated.
  - destruct (scan ph pw 0 (free_rectangles p)) as [[i r]|] eqn:E2.
    + now apply tp_rotated.
    + now apply tp_nofit.
Qed.

Lemma try_place_spec (p : Panel) (pw ph : Z) :
  first_fit_outcome p pw ph (try_place p pw ph).
Proof.
  unfold first_fit_outcome.
  destruct (try_place_inv p pw ph) as [i r H1 | i r H1 H2 | H1 H2].
  - destruct (scan_some _ _ _ _ _ _ H1) as (l1 & l2 & Hfree & -> & Hl1 & Hr).
    destruct r as [[[fx fy] fw] fh]. cbn [Nat.add].
    rewrite (place_at_split _ _ _ _ _ _ _ _ _ _ Hfree).
    exists l1, l2, fx, fy, fw, fh. simpl in Hr.
    apply andb_prop in Hr as [Hw Hh].
    repeat split; auto; try lia.
  - destruct (scan_some _ _ _ _ _ _ H2) as (l1 & l2 & Hfree & -> & Hl1 & Hr).
    destruct r as [[[fx fy] fw] fh]. cbn [Nat.add].
    rewrite (place_at_split _ _ _ _ _ _ _ _ _ _ Hfree).
    exists l1, l2, fx, fy, fw, fh. simpl in Hr.
    apply andb_prop in Hr as [Hw Hh].
    apply scan_none in H1.
    split; [exact Hfree|]. split; [exact Hl1|].
    repeat (split; [lia || reflexivity|]).
    split; [right; auto|]. auto.
  - split; eapply scan_none; eassumption.
Qed.

Lemma try_place_none (p : Panel) (pw ph : Z) :
  fst (try_place p pw ph) = None -> snd (try_place p pw ph) = p.
Proof.
  destruct (try_place_inv p pw ph) as [i r H1 | i r H1 H2 | H1 H2].
  - destruct r as [[[fx fy] fw] fh]. simpl. discriminate.
  - destruct r as [[[fx fy] fw] fh]. simpl. discriminate.
  - reflexivity.
Qed.

Lemma fits_iff (w h : Z) (r : rect) :
  fits w h r = true <-> let '(_, _, rw, rh) := r in rw >= w /\ rh >= h.
Proof.
  destruct r as [[[x y] rw] rh]. unfold fits.
  rewrite andb_true_iff, !Z.geb_le. lia.
Qed.

Lemma fits_false (w h : Z) (r : rect) :
  fits w h r = false -> let '(_, _, rw, rh) := r in ~ (rw >= w /\ rh >= h).
Proof.
  intros H. pose proof (fits_iff w h r) as Hi.
  destruct r as [[[x y] rw] rh]. intros Hfit. apply Hi in Hfit. congruence.
Qed.

(** C4. [try_place] tries the unrotated orientation first and the rotated
    one second; within an orientation it accepts the first free rectangle,
    in list order, with width >= w and height >= h; it returns a placement
    at that rectangle's origin, removes the rectangle, appends the right
    strip (fx+w, fy, fw-w, h) when fw-w > 0 and then the bottom strip
    (fx, fy+h, fw, fh-h) of full width when fh-h > 0; the rotated
    orientation is used only when no rectangle fits unrotated, and None is
    returned, the panel untouched, only when no rectangle fits in either
    orientation. *)
Theorem try_place_first_fit (p : Panel) (pw ph : Z) :
  match try_place p pw ph with
  | (Some (x, y, w, h, rotated), p') =>
      exists l1 l2 fx fy fw fh,
        free_rectangles p = l1 ++ (fx, fy, fw, fh) :: l2 /\
        Forall (fun r => let '(_, _, rw, rh) := r in ~ (rw >= w /\ rh >= h))
               l1 /\
        fw >= w /\ fh >= h /\
        x = fx /\ y = fy /\
        ((rotated = false /\ w = pw /\ h = ph) \/
         (rotated = true /\ w = ph /\ h = pw /\
          Forall (fun r => let '(_, _, rw, rh) := r in
                           ~ (rw >= pw /\ rh >= ph))
                 (free_rectangles p))) /\
        free_rectangles p' =
          l1 ++ l2 ++
          (if fw - w >? 0 then [(fx + w, fy, fw - w, h)] else []) ++
          (if fh - h >? 0 then [(fx, fy + h, fw, fh - h)] else []) /\
        placements p' = placements p ++ [(x, y, w, h, rotated)] /\
        width p' = width p /\ height p' = height p
  | (None, p') =>
      p' = p /\
      Forall (fun r => let '(_, _, rw, rh) := r in
                       ~ (rw >= pw /\ rh >= ph) /\ ~ (rw >= ph /\ rh >= pw))
             (free_rectangles p)
  end.
Proof.
  pose proof (try_place_spec p pw ph) as H. unfold first_fit_outcome in H.
  pose proof (try_place_none p pw ph) as Hn.
  destruct (try_place p pw ph) as [[[[[[x y] w] h] rotated]|] p'];
    cbn [fst snd] in Hn.
  - destruct H as (l1 & l2 & fx & fy & fw & fh & Hfree & Hl1 & Hw & Hh & Hx & Hy
                   & Hrot & Hrest).
    exists l1, l2, fx, fy, fw, fh.
    split; [exact Hfree|]. split.
    { eapply Forall_impl; [|exact Hl1]. intros r. apply fits_false. }
    split; [exact Hw|]. split; [exact Hh|].
    split; [exact Hx|]. split; [exact Hy|]. split; [|exact Hrest].
    destruct Hrot as [Hu | (Hr & Hw' & Hh' & Hnone)]; [left; exact Hu|].
    right. repeat (split; [assumption|]).
    eapply Forall_impl; [|exact Hnone]. intros r. apply fits_false.
  - split; [now apply Hn|]. destruct H as [H1 H2].
    rewrite Forall_forall in *. intros r Hr.
    pose proof (fits_false _ _ _ (H1 r Hr)) as F1.
    pose proof (fits_false _ _ _ (H2 r Hr)) as F2.
    destruct r as [[[rx ry] rw] rh]. split; assumption.
Qed.

(** A panel with three free rectangles and a piece of 90 x 30: the first
    two rectangles do not hold it unrotated, the third does; rotated it
    would fit the second, but the unrotated orientation is tried first. *)
Lemma try_place_first_fit_witness :
  exists l1 l2 fx fy fw fh,
    [(0, 0, 50, 50); (60, 0, 40, 100); (0, 60, 100, 40)]
    = l1 ++ (fx, fy, fw, fh) :: l2 /\
    Forall (fun r : rect => let '(_, _, rw, rh) := r in
                            ~ (rw >= 90 /\ rh >= 30)) l1 /\
    fw >= 90 /\ fh >= 30 /\
    0 = fx /\ 60 = fy /\
    ((false = false /\ 90 = 90 /\ 30 = 30) \/
     (false = true /\ 90 = 30 /\ 30 = 90 /\
      Forall (fun r : rect => let '(_, _, rw, rh) := r in
                              ~ (rw >= 90 /\ rh >= 30))
             [(0, 0, 50, 50); (60, 0, 40, 100); (0, 60, 100, 40)])) /\
    [(0, 0, 50, 50); (60, 0, 40, 100); (90, 60, 10, 30); (0, 90, 100, 10)] =
      l1 ++ l2 ++
      (if fw - 90 >? 0 then [(fx + 90, fy, fw - 90, 30)] else []) ++
      (if fh - 30 >? 0 then [(fx, fy + 30, fw, fh - 30)] else []) /\
    [(0, 60, 90, 30, false)] = [] ++ [(0, 60, 90, 30, false)] /\
    100 = 100 /\ 100 = 100.
Proof.
  exact (try_place_first_fit
           {| width := 100; height := 100;
              free_rectangles :=
                [(0, 0, 50, 50); (60, 0, 40, 100); (0, 60, 100, 40)];
              placements := [] |} 90 30).
Defined.

(** C9. When [try_place] returns None the panel is exactly as before the
    call: same free rectangles, same placements. *)
Theorem try_place_none_unchanged (p : Panel) (pw ph : Z) :
  fst (try_place p pw ph) = None -> snd (try_place p pw ph) = p.
Proof. exact (try_place_none p pw ph). Qed.

Lemma try_place_none_unchanged_witness :
  fst (try_place (Panel_init 200 200) 5000 5000) = None /\
  snd (try_place (Panel_init 200 200) 5000 5000) = Panel_init 200 200.
Proof.
  split; [reflexivity|].
  apply (try_place_none_unchanged (Panel_init 200 200) 5000 5000).
  reflexivity.
Defined.

(** C5 as stated fails: a piece that fills its free rectangle exactly
    removes the rectangle and appends no strip. *)
Lemma free_length_can_decrease :
  ~ (length (free_rectangles (Panel_init 10 10)) <=
     length (free_rectangles (snd (try_place (Panel_init 10 10) 10 10))))%nat.
Proof. vm_compute. intros H. inversion H. Qed.

(** C5, amended.  A call that returns None leaves the free list as it
    was.  A call that places a piece w x h in the rectangle (x, y, fw, fh)
    keeps every other free rectangle as it is and in its order (none is
    merged, altered or dropped), removes that rectangle and appends one
    strip if fw > w and one more if fh > h.  So the list is shorter, by
    exactly one, precisely when the piece fills its rectangle (fw = w and
    fh = h), and at least as long as before otherwise. *)
Theorem try_place_free_length (p : Panel) (pw ph : Z) :
  match try_place p pw ph with
  | (None, p') => free_rectangles p' = free_rectangles p
  | (Some (x, y, w, h, _), p') =>
      exists l1 l2 fw fh strips,
        free_rectangles p = l1 ++ (x, y, fw, fh) :: l2 /\
        free_rectangles p' = l1 ++ l2 ++ strips /\
        w <= fw /\ h <= fh /\
        length strips
        = ((if fw >? w then 1 else 0) + (if fh >? h then 1 else 0))%nat /\
        (fw = w /\ fh = h ->
         S (length (free_rectangles p')) = length (free_rectangles p)) /\
        (~ (fw = w /\ fh = h) ->
         (length (free_rectangles p) <= length (free_rectangles p'))%nat)
  end.
Proof.
  pose proof (try_place_spec p pw ph) as H.
  unfold first_fit_outcome in H.
  pose proof (try_place_none p pw ph) as Hn.
  destruct (try_place p pw ph) as [[[[[[x y] w] h] rotated]|] p'];
    cbn [fst snd] in *.
  - destruct H as (l1 & l2 & fx & fy & fw & fh & Hfree & _ & Hw & Hh & -> & ->
                   & _ & Hfree' & _).
    set (strips := (if fw - w >? 0 then [(fx + w, fy, fw - w, h)] else []) ++
                   (if fh - h >? 0 then [(fx, fy + h, fw, fh - h)] else []))
      in *.
    exists l1, l2, fw, fh, strips.
    split; [exact Hfree|]. split; [exact Hfree'|].
    split; [lia|]. split; [lia|].
    assert (Hlen : length strips
            = ((if fw >? w then 1 else 0) + (if fh >? h then 1 else 0))%nat).
    { subst strips. rewrite length_app.
      destruct (Z.gtb_spec (fw - w) 0), (Z.gtb_spec (fh - h) 0),
               (Z.gtb_spec fw w), (Z.gtb_spec fh h);
        try lia; reflexivity. }
    split; [exact Hlen|].
    rewrite Hfree, Hfree', !length_app, Hlen. cbn [length].
    destruct (Z.gtb_spec fw w), (Z.gtb_spec fh h); split; lia.
  - now rewrite Hn.
Qed.

(** A piece that leaves both strips, and one that fills its rectangle. *)
Lemma try_place_free_length_witness :
  (exists l1 l2 fw fh strips,
      [(0, 0, 200, 200)] = l1 ++ (0, 0, fw, fh) :: l2 /\
      [(100, 0, 100, 50); (0, 50, 200, 150)] = l1 ++ l2 ++ strips /\
      100 <= fw /\ 50 <= fh /\
      length strips
      = ((if fw >? 100 then 1 else 0) + (if fh >? 50 then 1 else 0))%nat /\
      (fw = 100 /\ fh = 50 ->
       S (length [(100, 0, 100, 50); (0, 50, 200, 150)])
       = length [(0, 0, 200, 200)]) /\
      (~ (fw = 100 /\ fh = 50) ->
       (length [(0, 0, 200, 200)]
        <= length [(100, 0, 100, 50); (0, 50, 200, 150)])%nat)) /\
  (exists l1 l2 fw fh strips,
      [(0, 0, 10, 10)] = l1 ++ (0, 0, fw, fh) :: l2 /\
      @nil rect = l1 ++ l2 ++ strips /\
      10 <= fw /\ 10 <= fh /\
      length strips
      = ((if fw >? 10 then 1 else 0) + (if fh >? 10 then 1 else 0))%nat /\
      (fw = 10 /\ fh = 10 ->
       S (length (@nil rect)) = length [(0, 0, 10, 10)]) /\
      (~ (fw = 10 /\ fh = 10) ->
       (length [(0, 0, 10, 10)] <= length (@nil rect))%nat)).
Proof.
  split.
  - exact (try_place_free_length (Panel_init 200 200) 100 50).
  - exact (try_place_free_length (Panel_init 10 10) 10 10).
Defined.

(** ** The simulation loop *)

Lemma placed_flags_length panel ps :
  length (placed_flags panel ps) = length ps.
Proof.
  revert panel. induction ps as [|[pw ph] rest IH]; intros panel; simpl; auto.
  destruct (try_place panel pw ph) as [[pl|] panel']; simpl; now rewrite IH.
Qed.

Lemma try_place_unrotated panel pw ph pl panel' :
  try_place panel pw ph = (Some pl, panel') ->
  unrotated pl = (pw, ph) /\ placements panel' = placements panel ++ [pl] /\
  width panel' = width panel /\ height panel' = height panel.
Proof.
  intros E. pose proof (try_place_spec panel pw ph) as H.
  unfold first_fit_outcome in H.
  rewrite E in H. destruct pl as [[[[x y] w] h] rotated].
  destruct H as (l1 & l2 & fx & fy & fw & fh & _ & _ & _ & _ & _ & _
                 & Hrot & _ & Hpl & Hw & Hh).
  repeat split; auto.
  destruct Hrot as [(-> & -> & ->) | (-> & -> & -> & _)]; reflexivity.
Qed.

Lemma simulate_spec ps : forall panel i acc panel' packed,
  simulate panel i ps acc = (panel', packed) ->
  packed = acc ++ indices_from i (placed_flags panel ps) /\
  width panel' = width panel /\ height panel' = height panel /\
  exists new, placements panel' = placements panel ++ new /\
              map unrotated new = select (placed_flags panel ps) ps /\
              length new = length (indices_from i (placed_flags panel ps)).
Proof.
  induction ps as [|[pw ph] rest IH]; simpl; intros panel i acc panel' packed H.
  - injection H as <- <-. rewrite !app_nil_r. repeat split; auto.
    exists []. now rewrite app_nil_r.
  - destruct (try_place panel pw ph) as [[pl|] panel1] eqn:E.
    + destruct (try_place_unrotated _ _ _ _ _ E) as (Hu & Hp & Hw & Hh).
      destruct (IH _ _ _ _ _ H) as (-> & Hw' & Hh' & new & Hnew & Hmap & Hlen).
      simpl. rewrite <- app_assoc. repeat split; try congruence.
      exists (pl :: new). rewrite Hnew, Hp, <- app_assoc. simpl.
      repeat split; congruence.
    + pose proof (try_place_none panel pw ph) as Hn.
      rewrite E in Hn. simpl in Hn. rewrite Hn in H by reflexivity.
      destruct (IH _ _ _ _ _ H) as (-> & Hw' & Hh' & new & Hnew & Hmap & Hlen).
      rewrite Hn by reflexivity. repeat split; auto.
      exists new. auto.
Qed.

Lemma indices_from_sorted flags : forall i,
  StronglySorted lt (indices_from i flags) /\
  Forall (fun j => (i <= j)%nat) (indices_from i flags).
Proof.
  induction flags as [|[] fl IH]; intros i; simpl.
  - split; constructor.
  - destruct (IH (S i)) as [Hs Hf]. split.
    + constructor; [exact Hs|]. eapply Forall_impl; [|exact Hf]. simpl. lia.
    + constructor; [lia|]. eapply Forall_impl; [|exact Hf]. simpl. lia.
  - destruct (IH (S i)) as [Hs Hf]. split; [exact Hs|].
    eapply Forall_impl; [|exact Hf]. simpl. lia.
Qed.

(** The packed indices point inside the pending list, so neither
    [pieces[i]] on line 97 nor [del pieces[i]] on line 123 raises. *)
Lemma indices_from_lt flags : forall i,
  Forall (fun j => (j < i + length flags)%nat) (indices_from i flags).
Proof.
  induction flags as [|[] fl IH]; intros i; simpl; [constructor| |].
  - constructor; [lia|]. eapply Forall_impl; [|exact (IH (S i))]. simpl. lia.
  - eapply Forall_impl; [|exact (IH (S i))]. simpl. lia.
Qed.

(** Deleting the raised positions, highest first, keeps exactly the elements
    whose flag is down. *)
Lemma delete_indices {A : Type} flags : forall (pre l : list A),
  length flags = length l ->
  fold_left (fun ps i => del_at i ps)
            (rev (indices_from (length pre) flags)) (pre ++ l)
  = pre ++ select (map negb flags) l.
Proof.
  induction flags as [|b fl IH]; intros pre l Hlen; destruct l as [|x l];
    simpl in Hlen; try discriminate; simpl; [reflexivity|].
  injection Hlen as Hlen.
  specialize (IH (pre ++ [x]) l Hlen).
  rewrite length_app, <- app_assoc in IH. simpl in IH.
  replace (length pre + 1)%nat with (S (length pre)) in IH by lia.
  destruct b; simpl.
  - rewrite fold_left_app, IH. simpl.
    rewrite <- app_assoc. simpl. apply del_at_middle.
  - rewrite IH, <- app_assoc. reflexivity.
Qed.

Lemma select_partition {A : Type} flags : forall l : list A,
  length flags = length l ->
  Permutation l (select flags l ++ select (map negb flags) l).
Proof.
  induction flags as [|b fl IH]; intros [|x l] Hlen; simpl in Hlen;
    try discriminate; simpl; [constructor|].
  injection Hlen as Hlen. destruct b; simpl.
  - constructor. auto.
  - apply Permutation_cons_app. auto.
Qed.

Lemma select_length {A : Type} flags : forall (i : nat) (l : list A),
  length flags = length l ->
  (length (select (map negb flags) l) + length (indices_from i flags)
   = length l)%nat.
Proof.
  induction flags as [|b fl IH]; intros i [|x l] Hlen; simpl in Hlen;
    try discriminate; simpl; [reflexivity|].
  injection Hlen as Hlen. specialize (IH (S i) l Hlen).
  destruct b; simpl; lia.
Qed.

Lemma nth_indices_from (flags : list bool) : forall (pre l : list piece),
  length flags = length l ->
  map (fun i => area (nth i (pre ++ l) (0, 0)))
      (indices_from (length pre) flags)
  = map area (select flags l).
Proof.
  induction flags as [|b fl IH]; intros pre [|x l] Hlen; simpl in Hlen;
    try discriminate; simpl; [reflexivity|].
  injection Hlen as Hlen.
  specialize (IH (pre ++ [x]) l Hlen).
  rewrite length_app, <- app_assoc in IH. simpl in IH.
  replace (length pre + 1)%nat with (S (length pre)) in IH by lia.
  destruct b; simpl; [|exact IH].
  rewrite IH. f_equal.
  rewrite app_nth2, Nat.sub_diag by lia. reflexivity.
Qed.

(** ** One candidate board *)

Lemma remove_packed_flags (ps : list piece) (flags : list bool) :
  length flags = length ps ->
  remove_packed ps (indices_from 0 flags) = select (map negb flags) ps.
Proof.
  intros Hlen. unfold remove_packed.
  rewrite sort_desc_increasing by apply indices_from_sorted.
  exact (delete_indices flags [] ps Hlen).
Qed.

Lemma packs_spec ps bd :
  snd (packs ps bd) = indices_from 0 (board_flags ps bd) /\
  length (board_flags ps bd) = length ps /\
  map unrotated (placements (fst (packs ps bd))) = select (board_flags ps bd) ps /\
  length (placements (fst (packs ps bd))) = length (snd (packs ps bd)) /\
  width (fst (packs ps bd)) = fst (fst bd) /\
  height (fst (packs ps bd)) = snd (fst bd).
Proof.
  destruct bd as [[bw bh] c]. unfold packs, board_flags.
  destruct (simulate (Panel_init bw bh) 0 ps []) as [panel idx] eqn:E.
  destruct (simulate_spec _ _ _ _ _ _ E)
    as (-> & Hw & Hh & new & Hnew & Hmap & Hlen).
  simpl in *. rewrite Hnew. rewrite placed_flags_length. repeat split; auto.
Qed.

Lemma packed_area_select ps bd :
  packed_area ps (snd (packs ps bd))
  = fold_left Z.add (map area (select (board_flags ps bd) ps)) 0.
Proof.
  destruct (packs_spec ps bd) as (-> & Hlen & _).
  unfold packed_area. f_equal. exact (nth_indices_from _ [] ps Hlen).
Qed.

(** The packed area is also the area of the placed rectangles: rotation
    does not change it. *)
Lemma unrotated_area pl :
  area (unrotated pl) = let '(_, _, w, h, _) := pl in w * h.
Proof.
  destruct pl as [[[[x y] w] h] []]; unfold area; simpl; lia.
Qed.

(** ** Placements stay on their panel *)

Lemma Panel_init_within W H : panel_within (Panel_init W H).
Proof.
  split; simpl; constructor; simpl; auto. lia.
Qed.

Lemma try_place_within p pw ph :
  0 <= pw -> 0 <= ph -> panel_within p ->
  panel_within (snd (try_place p pw ph)).
Proof.
  intros Hpw Hph [Hfree Hpl].
  pose proof (try_place_spec p pw ph) as H.
  unfold first_fit_outcome in H.
  pose proof (try_place_none p pw ph) as Hn.
  destruct (try_place p pw ph) as [[[[[[x y] w] h] rotated]|] p']; simpl in *.
  - destruct H as (l1 & l2 & fx & fy & fw & fh & Hf & _ & Hw & Hh & -> & ->
                   & Hrot & Hf' & Hpl' & HW & HH).
    assert (Hwh : 0 <= w /\ 0 <= h)
      by (destruct Hrot as [(_ & -> & ->) | (_ & -> & -> & _)]; auto).
    rewrite Hf in Hfree. apply Forall_app in Hfree as [H1 H2].
    inversion H2 as [|r l Hr H2' Heq]; subst r l. simpl in Hr.
    unfold panel_within. rewrite Hf', Hpl', HW, HH. split.
    + repeat (apply Forall_app; split); auto.
      * destruct (fw - w >? 0); constructor; auto. simpl. lia.
      * destruct (fh - h >? 0); constructor; auto. simpl. lia.
    + apply Forall_app. split; auto. constructor; auto. simpl. lia.
  - rewrite Hn by reflexivity. split; auto.
Qed.

Lemma simulate_within ps : forall panel i acc,
  Forall nonneg_piece ps -> panel_within panel ->
  panel_within (fst (simulate panel i ps acc)).
Proof.
  induction ps as [|[pw ph] rest IH]; simpl; intros panel i acc Hps Hp; auto.
  inversion Hps as [|q l [Hw Hh] Hrest Heq]; subst q l. simpl in Hw, Hh.
  pose proof (try_place_within panel pw ph Hw Hh Hp) as H.
  destruct (try_place panel pw ph) as [[pl|] panel']; simpl in H; auto.
Qed.

Lemma packs_within ps bd :
  Forall nonneg_piece ps ->
  Forall (placement_within (fst (fst bd)) (snd (fst bd)))
         (placements (fst (packs ps bd))).
Proof.
  intros Hps. destruct (packs_spec ps bd) as (_ & _ & _ & _ & HW & HH).
  rewrite <- HW, <- HH. destruct bd as [[bw bh] c]. unfold packs.
  apply simulate_within; auto. apply Panel_init_within.
Qed.

Lemma select_Forall {A : Type} (P : A -> Prop) flags : forall l,
  Forall P l -> Forall P (select flags l).
Proof.
  induction flags as [|[] fl IH]; intros [|x l] H; simpl; auto;
    inversion H; subst; auto.
Qed.

Lemma entry_within_weaken bs bd e :
  entry_within bs e -> entry_within (bs ++ [bd]) e.
Proof.
  destruct e as [[[[[x y] w] h] b] r]. simpl.
  intros (Hb & bw & bh & c & Hnth & Hrest).
  split; [exact Hb|]. exists bw, bh, c. split; [|exact Hrest].
  rewrite nth_error_app1; auto. apply nth_error_Some. congruence.
Qed.

Lemma expand_Forall (P : piece -> Prop) required_pieces :
  Forall (fun r => P (fst r)) required_pieces ->
  Forall P (expand required_pieces).
Proof.
  induction 1 as [|[[w h] q] l Hr _ IH]; simpl; [constructor|].
  apply Forall_app. split; [|exact IH].
  apply Forall_forall. intros x Hx. apply repeat_spec in Hx. now subst.
Qed.

(** ** Plan entries, costs and ordinals *)

Lemma recovered_tag n pl : recovered (tag n pl) = unrotated pl.
Proof. destruct pl as [[[[x y] w] h] r]. reflexivity. Qed.

Lemma ordinal_tag n pl : ordinal (tag n pl) = n.
Proof. destruct pl as [[[[x y] w] h] r]. reflexivity. Qed.

Lemma sum_costs_app bs bd : sum_costs (bs ++ [bd]) = sum_costs bs + cost_of bd.
Proof.
  unfold sum_costs. induction bs as [|b bs IH]; simpl; [lia|].
  rewrite IH. lia.
Qed.

Lemma max_ordinal_app cp1 cp2 :
  max_ordinal (cp1 ++ cp2) = Nat.max (max_ordinal cp1) (max_ordinal cp2).
Proof.
  unfold max_ordinal. induction cp1 as [|e cp1 IH]; simpl; [reflexivity|].
  rewrite IH. lia.
Qed.

Lemma max_ordinal_tag n pls :
  pls <> [] -> max_ordinal (map (tag n) pls) = n.
Proof.
  unfold max_ordinal. induction pls as [|pl pls IH]; [congruence|].
  intros _. simpl. rewrite ordinal_tag.
  destruct pls as [|pl' pls]; [simpl; lia|].
  rewrite IH by discriminate. lia.
Qed.

(** ** The optimizer *)

Section OptimizerFacts.
Variable eff : Type.
Variable truediv : Z -> Z -> option eff.
Variable eff_ltb : eff -> eff -> bool.

Local Abbreviation board_loop' := (board_loop eff truediv eff_ltb).
Local Abbreviation iteration' := (iteration eff truediv eff_ltb).
Local Abbreviation while_loop' := (while_loop eff truediv eff_ltb).
Local Abbreviation reaches' := (reaches eff truediv eff_ltb).
Local Abbreviation optimize_purchase' := (optimize_purchase eff truediv eff_ltb).
Local Abbreviation efficiency_of' := (efficiency_of eff truediv).
Local Abbreviation chosen_from' := (chosen_from eff truediv).
Local Abbreviation first_lowest' := (first_lowest eff truediv eff_ltb).

Lemma board_loop_cons ps bd rest b :
  board_loop' ps (bd :: rest) b =
  if packs_some ps bd then
    match efficiency_of' ps bd with
    | Raise e => Raise e
    | Ok e =>
        if improves eff eff_ltb e b
        then board_loop' ps rest
               (Some (e, bd, fst (packs ps bd), snd (packs ps bd)))
        else board_loop' ps rest b
    end
  else board_loop' ps rest b.
Proof.
  destruct bd as [[bw bh] c]. unfold efficiency_of, packs_some, packs.
  simpl. destruct (simulate (Panel_init bw bh) 0 ps []) as [panel idx].
  simpl. destruct idx; reflexivity.
Qed.

Lemma py_truediv_not_unpackable c a :
  py_truediv eff truediv c a <> Raise UnpackablePiece.
Proof.
  unfold py_truediv. destruct (a =? 0); [discriminate|].
  destruct (truediv c a); discriminate.
Qed.

Lemma board_loop_chosen ps boards : forall b res all,
  (forall bd, In bd boards -> In bd all) ->
  chosen_from' ps all b ->
  board_loop' ps boards b = Ok res ->
  chosen_from' ps all res.
Proof.
  induction boards as [|bd rest IH]; intros b res all Hsub Hb H.
  - simpl in H. now injection H as <-.
  - rewrite board_loop_cons in H.
    assert (Hrest : forall bd', In bd' rest -> In bd' all)
      by (intros; apply Hsub; now right).
    destruct (packs_some ps bd) eqn:Es; [|eauto].
    destruct (efficiency_of' ps bd) as [e|err] eqn:Ee; [|discriminate].
    destruct (improves eff eff_ltb e b); [|eauto].
    eapply IH; [exact Hrest| |exact H].
    simpl. repeat split; auto. apply Hsub. now left.
Qed.

(** The loop leaves [best_board] None exactly when it started None and no
    board type packed a piece. *)
Lemma board_loop_none ps boards : forall b,
  board_loop' ps boards b = Ok None <->
  b = None /\ Forall (fun bd => snd (packs ps bd) = []) boards.
Proof.
  induction boards as [|bd rest IH]; intros b.
  - simpl. split.
    + intros H. injection H as ->. auto.
    + intros [-> _]. reflexivity.
  - rewrite board_loop_cons. unfold packs_some.
    destruct (snd (packs ps bd)) as [|i idx] eqn:Es.
    + rewrite IH. split; intros [Hb Hf]; split; auto.
      now inversion Hf.
    + split.
      * destruct (efficiency_of' ps bd) as [e|err]; [|discriminate].
        destruct (improves eff eff_ltb e b) eqn:Ei; rewrite IH.
        -- intros [Hb _]. discriminate.
        -- intros [Hb _]. subst b. discriminate.
      * intros [_ Hf]. inversion Hf. congruence.
Qed.

Lemma board_loop_raise ps boards : forall b e,
  board_loop' ps boards b = Raise e -> e <> UnpackablePiece.
Proof.
  induction boards as [|bd rest IH]; intros b e H; [discriminate|].
  rewrite board_loop_cons in H.
  destruct (packs_some ps bd); [|eauto].
  destruct (efficiency_of' ps bd) as [e0|err] eqn:Ee.
  - destruct (improves eff eff_ltb e0 b); eauto.
  - injection H as <-. intros ->.
    exact (py_truediv_not_unpackable _ _ Ee).
Qed.

(** ** One iteration of the main loop *)

Lemma iteration_ok boards st st' :
  iteration' boards st = Ok st' ->
  exists e bd,
    board_loop' (pieces st) boards None
    = Ok (Some (e, bd, fst (packs (pieces st) bd),
                snd (packs (pieces st) bd))) /\
    commits boards st st' bd.
Proof.
  unfold iteration. intros H.
  destruct (board_loop' (pieces st) boards None)
    as [[[[[e bd] panel] idx]|]|err] eqn:E; try discriminate.
  assert (Hc : chosen_from' (pieces st) boards (Some (e, bd, panel, idx))).
  { eapply board_loop_chosen; [| |exact E]; simpl; auto. }
  destruct Hc as (Hin & Hsome & -> & -> & He).
  exists e, bd. split; [reflexivity|].
  destruct bd as [[bw bh] c]. injection H as <-.
  destruct (packs_spec (pieces st) (bw, bh, c)) as (Hidx & Hlen & _).
  constructor;
    cbn [pieces cutting_plan board_solution total_cost board_count cost_of];
    auto.
  - unfold packs_some in Hsome.
    destruct (snd (packs (pieces st) (bw, bh, c))); [discriminate|].
    discriminate.
  - change (simulate (Panel_init bw bh) 0 (pieces st) [])
      with (packs (pieces st) (bw, bh, c)).
    rewrite Hidx. now apply remove_packed_flags.
Qed.

Lemma commits_shrinks boards st st' bd :
  commits boards st st' bd ->
  (length (pieces st') < length (pieces st))%nat.
Proof.
  intros [_ Hp Hpieces _ _ _ _].
  destruct (packs_spec (pieces st) bd) as (Hidx & Hlen & _).
  pose proof (select_length _ 0%nat _ Hlen) as Hsel.
  rewrite Hpieces. rewrite Hidx in Hp.
  destruct (indices_from 0 (board_flags (pieces st) bd)); [congruence|].
  simpl in Hsel. lia.
Qed.

Lemma iteration_unpackable boards st :
  iteration' boards st = Raise UnpackablePiece <->
  Forall (fun bd => snd (packs (pieces st) bd) = []) boards.
Proof.
  unfold iteration.
  destruct (board_loop' (pieces st) boards None)
    as [[[[[e [[bw bh] c]] panel] idx]|]|err] eqn:E.
  - split; [discriminate|]. intros Hf.
    assert (H : board_loop' (pieces st) boards None = Ok None)
      by (apply board_loop_none; auto).
    congruence.
  - split; [|reflexivity]. intros _. now apply board_loop_none in E.
  - split.
    + intros H. injection H as ->. now apply board_loop_raise in E.
    + intros Hf.
      assert (H : board_loop' (pieces st) boards None = Ok None)
        by (apply board_loop_none; auto).
      congruence.
Qed.

Lemma board_loop_raise_source ps boards : forall b e,
  board_loop' ps boards b = Raise e ->
  exists bd, In bd boards /\ snd (packs ps bd) <> [] /\
             efficiency_of' ps bd = Raise e.
Proof.
  induction boards as [|bd rest IH]; intros b e H; [discriminate|].
  rewrite board_loop_cons in H. unfold packs_some in H.
  assert (Hrest : forall b0, board_loop' ps rest b0 = Raise e ->
            exists bd0, In bd0 (bd :: rest) /\ snd (packs ps bd0) <> [] /\
                        efficiency_of' ps bd0 = Raise e).
  { intros b0 H0. destruct (IH _ _ H0) as (bd0 & Hin & Hrest).
    exists bd0. split; [now right | exact Hrest]. }
  destruct (snd (packs ps bd)) as [|i idx] eqn:Es; [eauto|].
  destruct (efficiency_of' ps bd) as [e0|err] eqn:Ee.
  - destruct (improves eff eff_ltb e0 b); eauto.
  - injection H as <-. exists bd. split; [now left|].
    split; [rewrite Es; discriminate | exact Ee].
Qed.

(** ** The main loop *)

(** An invariant of the loop body holds wherever the loop gets. *)
Lemma reaches_invariant (P : state -> Prop) boards :
  (forall st st' bd, P st -> commits boards st st' bd -> P st') ->
  forall st st', reaches' boards st st' -> P st -> P st'.
Proof.
  intros Hstep st st'. induction 1 as [|st st1 st2 Hne Hit _ IH]; auto.
  intros HP. apply IH.
  destruct (iteration_ok _ _ _ Hit) as (e & bd & _ & Hc). eauto.
Qed.

Lemma while_loop_returned boards fuel : forall st cp bs tc,
  while_loop' fuel boards st = Returned cp bs tc ->
  exists st', reaches' boards st st' /\ pieces st' = [] /\
              cutting_plan st' = cp /\ board_solution st' = bs /\
              total_cost st' = tc.
Proof.
  induction fuel as [|fuel IH]; intros st cp bs tc H; simpl in H;
    destruct (pieces st) as [|p ps] eqn:Ep; try discriminate.
  - injection H as <- <- <-. exists st. repeat split; auto. constructor.
  - injection H as <- <- <-. exists st. repeat split; auto. constructor.
  - destruct (iteration' boards st) as [st1|e] eqn:Eit; [|discriminate].
    destruct (IH _ _ _ _ H) as (st' & Hr & Hrest).
    exists st'. split; [|exact Hrest].
    eapply reaches_step; eauto. congruence.
Qed.

Lemma while_loop_raised boards fuel : forall st e,
  while_loop' fuel boards st = Raised e ->
  exists st', reaches' boards st st' /\ pieces st' <> [] /\
              iteration' boards st' = Raise e.
Proof.
  induction fuel as [|fuel IH]; intros st e H; simpl in H;
    destruct (pieces st) as [|p ps] eqn:Ep; try discriminate.
  destruct (iteration' boards st) as [st1|e1] eqn:Eit.
  - destruct (IH _ _ H) as (st' & Hr & Hrest).
    exists st'. split; [|exact Hrest].
    eapply reaches_step; eauto. congruence.
  - injection H as <-. exists st. repeat split; auto.
    + constructor.
    + congruence.
Qed.

Lemma iteration_shrinks boards st st' :
  iteration' boards st = Ok st' ->
  (length (pieces st') < length (pieces st))%nat.
Proof.
  intros H. destruct (iteration_ok _ _ _ H) as (e & bd & _ & Hc).
  eapply commits_shrinks; eauto.
Qed.

(** With one unit of fuel per pending piece the loop never runs out, and
    more fuel changes nothing. *)
Lemma while_loop_fuel_irrelevant boards fuel : forall st fuel2,
  (length (pieces st) <= fuel)%nat ->
  (length (pieces st) <= fuel2)%nat ->
  while_loop' fuel boards st <> OutOfFuel /\
  while_loop' fuel boards st = while_loop' fuel2 boards st.
Proof.
  induction fuel as [|fuel IH]; intros st fuel2 Hlen Hlen2.
  - destruct (pieces st) as [|p ps] eqn:Ep; simpl in Hlen; [|lia].
    destruct fuel2; simpl; rewrite Ep; split; discriminate || reflexivity.
  - destruct (pieces st) as [|p ps] eqn:Ep.
    + destruct fuel2; simpl; rewrite Ep; split; discriminate || reflexivity.
    + destruct fuel2 as [|fuel2]; simpl in Hlen, Hlen2; [lia|].
      simpl. rewrite Ep.
      destruct (iteration' boards st) as [st1|e] eqn:Eit;
        [|split; [discriminate | reflexivity]].
      pose proof (iteration_shrinks _ _ _ Eit) as Hs.
      rewrite Ep in Hs. simpl in Hs.
      apply IH; lia.
Qed.

Lemma while_loop_fuel_enough boards fuel st :
  (length (pieces st) <= fuel)%nat ->
  while_loop' fuel boards st <> OutOfFuel /\
  while_loop' fuel boards st = while_loop' (length (pieces st)) boards st.
Proof.
  intros Hlen. apply while_loop_fuel_irrelevant; auto.
Qed.

Lemma reaches_raises boards st st' e :
  reaches' boards st st' -> pieces st' <> [] ->
  iteration' boards st' = Raise e ->
  while_loop' (length (pieces st)) boards st = Raised e.
Proof.
  induction 1 as [st|st st1 st2 Hne Hit _ IH]; intros Hne' Hraise.
  - destruct (pieces st) as [|p ps] eqn:Ep; [congruence|].
    simpl. rewrite Ep, Hraise. reflexivity.
  - pose proof (iteration_shrinks _ _ _ Hit) as Hs.
    destruct (pieces st) as [|p ps] eqn:Ep; [congruence|].
    simpl. rewrite Ep, Hit. simpl in Hs.
    destruct (while_loop_fuel_enough boards (length ps) st1 ltac:(lia))
      as [_ ->].
    auto.
Qed.

(** ** Multiset of pieces *)

Lemma commits_pieces boards st st' bd :
  commits boards st st' bd ->
  Permutation (map recovered (cutting_plan st') ++ pieces st')
              (map recovered (cutting_plan st) ++ pieces st).
Proof.
  intros [_ _ Hpieces Hplan _ _ _].
  destruct (packs_spec (pieces st) bd) as (_ & Hlen & Hmap & _).
  rewrite Hpieces, Hplan, map_app, map_map.
  rewrite (map_ext _ unrotated) by apply recovered_tag.
  rewrite Hmap, <- app_assoc.
  apply Permutation_app_head. symmetry. now apply select_partition.
Qed.

Lemma expand_flat_map (required_pieces : list (Z * Z * Z)) :
  expand required_pieces
  = flat_map (fun r => let '(width, height, quantity) := r in
                       repeat (width, height) (Z.to_nat quantity))
             required_pieces.
Proof.
  induction required_pieces as [|[[w h] q] rest IH]; simpl; [reflexivity|].
  now rewrite IH.
Qed.

(** C1. For every successful run the pieces recovered from the cutting
    plan, (w,h) for an unrotated and (h,w) for a rotated placement, are as
    a multiset the required pieces, each (width, height, quantity) entry
    counted as [quantity] copies of (width, height): every required piece
    appears exactly once. *)
Theorem cutting_plan_is_expansion required_pieces available_boards cp bs tc :
  optimize_purchase' required_pieces available_boards = Returned cp bs tc ->
  Permutation
    (map (fun e : plan_entry =>
            let '(_, _, w, h, _, rotated) := e in
            if rotated then (h, w) else (w, h)) cp)
    (flat_map (fun r => let '(width, height, quantity) := r in
                        repeat (width, height) (Z.to_nat quantity))
              required_pieces).
Proof.
  intros H. apply while_loop_returned in H.
  destruct H as (st' & Hr & Hp & <- & _).
  assert (Hinv : Permutation (map recovered (cutting_plan st') ++ pieces st')
                             (expand required_pieces)).
  { refine (reaches_invariant
              (fun s => Permutation (map recovered (cutting_plan s) ++ pieces s)
                                    (expand required_pieces))
              available_boards _ _ _ Hr _).
    - intros st st1 bd Hst Hc. now rewrite (commits_pieces _ _ _ _ Hc).
    - simpl. symmetry. apply sort_desc_perm. }
  rewrite Hp, app_nil_r, expand_flat_map in Hinv. exact Hinv.
Qed.

(** ** Cost and board ordinals *)

Lemma commits_accounts boards st st' bd :
  accounts st -> commits boards st st' bd -> accounts st'.
Proof.
  intros (Hc & Hn & Hm) [_ Hpacks _ Hplan Hsol Hcost Hcount].
  destruct (packs_spec (pieces st) bd) as (_ & _ & _ & Hlen & _).
  unfold accounts.
  rewrite Hcost, Hsol, Hcount, Hplan, sum_costs_app, length_app,
    max_ordinal_app, Hm, Hc, Hn. simpl.
  rewrite max_ordinal_tag.
  - repeat split; lia.
  - intros E. rewrite E in Hlen. simpl in Hlen.
    destruct (snd (packs (pieces st) bd)); [congruence | discriminate].
Qed.

(** C3. For every successful run the total cost is the sum of the unit
    costs of the boards of the solution, and for a non-empty cutting plan
    the number of boards of the solution is the largest board ordinal of
    the plan. *)
Theorem cost_and_ordinals required_pieces available_boards cp bs tc :
  optimize_purchase' required_pieces available_boards = Returned cp bs tc ->
  tc = sum_costs bs /\ (cp <> [] -> length bs = max_ordinal cp).
Proof.
  intros H. apply while_loop_returned in H.
  destruct H as (st' & Hr & _ & <- & <- & <-).
  assert (Hinv : accounts st').
  { refine (reaches_invariant accounts available_boards _ _ _ Hr _).
    - intros st st1 bd. apply commits_accounts.
    - repeat split. }
  destruct Hinv as (Hc & Hn & Hm). split; [exact Hc|]. intros _. lia.
Qed.

(** C10. When the expansion of required_pieces is empty the optimizer
    returns an empty plan, an empty solution and cost 0 for every catalog,
    the empty catalog included. *)
Theorem nothing_required required_pieces available_boards :
  expand required_pieces = [] ->
  optimize_purchase' required_pieces available_boards = Returned [] [] 0.
Proof.
  intros H. unfold optimize_purchase, initial_state. simpl.
  rewrite H. reflexivity.
Qed.

(** C6. The optimizer raises UnpackablePiece exactly when its loop gets to
    a non-empty pending list of which no board type of the catalog packs
    a piece.  The outcome is then the error alone: [Raised] carries no
    plan, solution or cost. *)
Theorem unpackable_iff required_pieces available_boards :
  optimize_purchase' required_pieces available_boards = Raised UnpackablePiece
  <->
  exists st,
    reaches' available_boards (initial_state required_pieces) st /\
    pieces st <> [] /\
    Forall (fun bd => snd (packs (pieces st) bd) = []) available_boards.
Proof.
  unfold optimize_purchase. split.
  - intros H. apply while_loop_raised in H.
    destruct H as (st & Hr & Hne & Hit).
    exists st. repeat split; auto. now apply iteration_unpackable.
  - intros (st & Hr & Hne & Hf).
    eapply reaches_raises; eauto. now apply iteration_unpackable.
Qed.

(** C8, amended.  The loop terminates for every input: the fuel given by
    [optimize_purchase] is never used up and any larger amount gives the
    same outcome.  Each iteration either raises -- UnpackablePiece when no
    board type packs a piece, or else the error of the division
    [cost / packed_area] for a board type that packed a piece -- or
    commits a board type whose packed-index list is non-empty and leaves
    strictly fewer pending pieces. *)
Theorem main_loop_terminates required_pieces available_boards :
  optimize_purchase' required_pieces available_boards <> OutOfFuel /\
  (forall fuel,
      (length (expand required_pieces) <= fuel)%nat ->
      while_loop' fuel available_boards (initial_state required_pieces)
      = optimize_purchase' required_pieces available_boards) /\
  forall st,
    match iteration' available_boards st with
    | Raise e =>
        (e = UnpackablePiece /\
         Forall (fun bd => snd (packs (pieces st) bd) = []) available_boards)
        \/
        (e <> UnpackablePiece /\
         exists bd, In bd available_boards /\
                    snd (packs (pieces st) bd) <> [] /\
                    efficiency_of' (pieces st) bd = Raise e)
    | Ok st' =>
        (exists bd, In bd available_boards /\
                    snd (packs (pieces st) bd) <> [] /\
                    board_solution st' = board_solution st ++ [bd]) /\
        (length (pieces st') < length (pieces st))%nat
    end.
Proof.
  assert (Hlen : length (pieces (initial_state required_pieces))
                 = length (expand required_pieces)).
  { simpl. symmetry. apply Permutation_length, sort_desc_perm. }
  split; [|split].
  - unfold optimize_purchase. now apply while_loop_fuel_enough.
  - intros fuel Hfuel. unfold optimize_purchase.
    apply while_loop_fuel_enough. now rewrite Hlen.
  - intros st. destruct (iteration' available_boards st) as [st'|e] eqn:E.
    + destruct (iteration_ok _ _ _ E) as (e & bd & _ & Hc).
      split; [|eapply commits_shrinks; eauto].
      exists bd. destruct Hc. auto.
    + destruct e.
      * left. split; [reflexivity|]. now apply iteration_unpackable.
      * right. split; [discriminate|]. unfold iteration in E.
        destruct (board_loop' (pieces st) available_boards None)
          as [[[[[e [[bw bh] c]] panel] idx]|]|err] eqn:Eb;
          try discriminate.
        injection E as ->. eapply board_loop_raise_source; eauto.
      * right. split; [discriminate|]. unfold iteration in E.
        destruct (board_loop' (pieces st) available_boards None)
          as [[[[[e [[bw bh] c]] panel] idx]|]|err] eqn:Eb;
          try discriminate.
        injection E as ->. eapply board_loop_raise_source; eauto.
Qed.

(** ** Placements stay on their board *)

Lemma commits_within boards st st' bd :
  plan_within st -> commits boards st st' bd -> plan_within st'.
Proof.
  intros (Hps & Hn & Hcp) [_ _ Hpieces Hplan Hsol _ Hcount].
  unfold plan_within. rewrite Hpieces, Hplan, Hsol, Hcount, length_app.
  split; [now apply select_Forall|]. split; [simpl; lia|].
  apply Forall_app. split.
  - eapply Forall_impl; [|exact Hcp]. intros e. apply entry_within_weaken.
  - apply Forall_map. eapply Forall_impl; [|exact (packs_within _ bd Hps)].
    intros [[[[x y] w] h] r] Hin. destruct bd as [[bw bh] c].
    simpl in *. split; [lia|]. exists bw, bh, c. split; [|exact Hin].
    rewrite Nat.sub_0_r, Hn, nth_error_app2, Nat.sub_diag by lia.
    reflexivity.
Qed.

Lemma plan_within_nonneg required_pieces available_boards cp bs tc :
  Forall (fun r => nonneg_piece (fst r)) required_pieces ->
  optimize_purchase' required_pieces available_boards = Returned cp bs tc ->
  Forall (entry_within bs) cp.
Proof.
  intros Hreq H. apply while_loop_returned in H.
  destruct H as (st' & Hr & _ & <- & <- & _).
  refine (proj2 (proj2 (reaches_invariant plan_within available_boards
                          _ _ _ Hr _))).
  - intros st st1 bd. apply commits_within.
  - repeat split; simpl; auto.
    eapply Permutation_Forall; [apply sort_desc_perm|].
    now apply expand_Forall.
Qed.

(** C2, amended.  For every successful run on pieces and boards of
    positive integer dimensions, every placement
    (x, y, w, h, board_number, rotated) of the plan satisfies 0 <= x,
    0 <= y, x + w <= boardWidth and y + h <= boardHeight for the board that
    board_solution lists at board_number.  (On float dimensions this
    fails, see the runs on floats at the end.) *)
Theorem placements_within_boards required_pieces available_boards cp bs tc :
  Forall (fun r => 0 < fst (fst r) /\ 0 < snd (fst r)) required_pieces ->
  Forall (fun bd => 0 < fst (fst bd) /\ 0 < snd (fst bd)) available_boards ->
  optimize_purchase' required_pieces available_boards = Returned cp bs tc ->
  Forall (entry_within bs) cp.
Proof.
  intros Hreq _. apply plan_within_nonneg.
  eapply Forall_impl; [|exact Hreq].
  intros [[w h] q]. unfold nonneg_piece. simpl. lia.
Qed.

(** ** Selection of the board type *)

(** The packed area is the total area of the packed pieces in their
    original orientation. *)
Lemma efficiency_of_unrotated ps bd :
  efficiency_of' ps bd =
  py_truediv eff truediv (cost_of bd)
    (sum_Z (map (fun pl => area (unrotated pl))
                (placements (fst (packs ps bd))))).
Proof.
  unfold efficiency_of. rewrite packed_area_select.
  destruct (packs_spec ps bd) as (_ & _ & Hmap & _).
  rewrite <- Hmap, map_map. reflexivity.
Qed.

Section StrictWeakOrder.
  Hypothesis ltb_asym :
    forall a b, eff_ltb a b = true -> eff_ltb b a = false.
  Hypothesis ltb_neg_trans :
    forall a b c, eff_ltb a b = true -> eff_ltb c b = false ->
                  eff_ltb a c = true.

Lemma ltb_irrefl a : eff_ltb a a = false.
Proof.
  destruct (eff_ltb a a) eqn:E; [|reflexivity].
  now rewrite (ltb_asym _ _ E) in E.
Qed.

Lemma first_lowest_keep ps cands bd e e' b :
  first_lowest' ps cands b ->
  efficiency_of' ps bd = Ok e' ->
  b = Some e ->
  eff_ltb e' (fst (fst (fst e))) = false ->
  first_lowest' ps (cands ++ [bd]) b.
Proof.
  intros Hb He' -> Hlt. destruct e as [[[e bd0] panel] idx].
  simpl in *. destruct Hb as (k & Hk & He & Hall).
  assert (Hklt : (k < length cands)%nat)
    by (apply nth_error_Some; congruence).
  exists k. split; [now rewrite nth_error_app1|]. split; [exact He|].
  intros j bdj Hj.
  destruct (Nat.lt_ge_cases j (length cands)) as [Hjl|Hjl].
  - rewrite nth_error_app1 in Hj by exact Hjl. eauto.
  - rewrite nth_error_app2 in Hj by exact Hjl.
    destruct (j - length cands)%nat as [|n] eqn:En;
      [|destruct n; discriminate].
    injection Hj as <-. exists e'. repeat split; auto. lia.
Qed.

Lemma first_lowest_replace ps cands bd e' b panel idx :
  first_lowest' ps cands b ->
  efficiency_of' ps bd = Ok e' ->
  improves eff eff_ltb e' b = true ->
  first_lowest' ps (cands ++ [bd]) (Some (e', bd, panel, idx)).
Proof.
  intros Hb He' Himp. simpl. exists (length cands).
  split; [now rewrite nth_error_app2, Nat.sub_diag by lia|].
  split; [exact He'|].
  intros j bdj Hj.
  destruct (Nat.lt_ge_cases j (length cands)) as [Hjl|Hjl].
  - rewrite nth_error_app1 in Hj by exact Hjl.
    destruct b as [[[[e bd0] panel0] idx0]|]; simpl in Hb, Himp.
    + destruct Hb as (k & Hk & He & Hall).
      destruct (Hall _ _ Hj) as (ej & Hej & Hlow & Hhigh).
      exists ej. split; [exact Hej|]. split; [|lia]. intros _.
      apply (ltb_neg_trans _ _ _ Himp).
      destruct (Nat.lt_trichotomy j k) as [Hjk|[Hjk|Hjk]].
      * apply ltb_asym. auto.
      * subst j. rewrite Hk in Hj. injection Hj as <-.
        rewrite He in Hej. injection Hej as <-. apply ltb_irrefl.
      * auto.
    + subst cands. destruct j; discriminate.
  - rewrite nth_error_app2 in Hj by exact Hjl.
    destruct (j - length cands)%nat as [|n] eqn:En;
      [|destruct n; discriminate].
    injection Hj as <-. exists e'. split; [exact He'|]. split; lia.
Qed.

Lemma board_loop_first_lowest ps boards : forall cands b res,
  first_lowest' ps cands b ->
  board_loop' ps boards b = Ok res ->
  first_lowest' ps (cands ++ survivors ps boards) res.
Proof.
  induction boards as [|bd rest IH]; intros cands b res Hb H.
  - simpl in H. injection H as <-. simpl. now rewrite app_nil_r.
  - rewrite board_loop_cons in H. unfold survivors. simpl.
    destruct (packs_some ps bd) eqn:Es; [|eauto].
    destruct (efficiency_of' ps bd) as [e'|err] eqn:Ee; [|discriminate].
    replace (cands ++ bd :: filter (packs_some ps) rest)
      with ((cands ++ [bd]) ++ survivors ps rest)
      by (rewrite <- app_assoc; reflexivity).
    destruct (improves eff eff_ltb e' b) eqn:Ei.
    + eapply IH; [|exact H]. eapply first_lowest_replace; eauto.
    + eapply IH; [|exact H].
      destruct b as [e|]; [|discriminate].
      eapply first_lowest_keep; eauto.
      destruct e as [[[e bd0] panel] idx]. exact Ei.
Qed.

End StrictWeakOrder.

Lemma original_area_unrotated pl : original_area pl = area (unrotated pl).
Proof. destruct pl as [[[[x y] w] h] []]; reflexivity. Qed.

Lemma packed_pieces_area_eq ps bd :
  packed_area ps (snd (packs ps bd)) = packed_pieces_area ps bd.
Proof.
  unfold packed_pieces_area. rewrite packed_area_select.
  destruct (packs_spec ps bd) as (_ & _ & Hmap & _).
  rewrite <- Hmap, map_map. unfold sum_Z. f_equal.
  apply map_ext. intros pl. now rewrite original_area_unrotated.
Qed.

(** The efficiency of line 98 is the quotient of the cost by the packed
    area, which is then not zero. *)
Lemma efficiency_of_quotient ps bd e :
  efficiency_of' ps bd = Ok e ->
  packed_pieces_area ps bd <> 0 /\
  truediv (cost_of bd) (packed_pieces_area ps bd) = Some e.
Proof.
  unfold efficiency_of, py_truediv. rewrite packed_pieces_area_eq.
  destruct (Z.eqb_spec (packed_pieces_area ps bd) 0) as [E|E]; [discriminate|].
  destruct (truediv (cost_of bd) (packed_pieces_area ps bd)) as [q|];
    [|discriminate].
  intros H. injection H as <-. auto.
Qed.

(** C7. In every iteration the committed board type is, among the
    board types that packed at least one piece taken in catalog order,
    the one of lowest efficiency, the first of them when several have
    it: its efficiency is strictly lower than that of every earlier
    candidate and no later candidate is strictly lower.  Efficiency is
    the quotient of the unit cost by the packed area, the sum over the
    packed pieces of width x height before rotation. *)
Theorem lowest_efficiency_first_wins available_boards st st' :
  (forall a b, eff_ltb a b = true -> eff_ltb b a = false) ->
  (forall a b c, eff_ltb a b = true -> eff_ltb c b = false ->
                 eff_ltb a c = true) ->
  iteration' available_boards st = Ok st' ->
  exists bd,
    board_solution st' = board_solution st ++ [bd] /\
    exists k e,
      nth_error (survivors (pieces st) available_boards) k = Some bd /\
      packed_pieces_area (pieces st) bd <> 0 /\
      truediv (cost_of bd) (packed_pieces_area (pieces st) bd) = Some e /\
      forall j bdj,
        nth_error (survivors (pieces st) available_boards) j = Some bdj ->
        exists ej,
          truediv (cost_of bdj) (packed_pieces_area (pieces st) bdj) = Some ej /\
          ((j < k)%nat -> eff_ltb e ej = true) /\
          ((k < j)%nat -> eff_ltb ej e = false).
Proof.
  intros ltb_asym ltb_neg_trans H.
  destruct (iteration_ok _ _ _ H) as (e & bd & Hloop & Hc).
  pose proof (board_loop_first_lowest ltb_asym ltb_neg_trans
                (pieces st) available_boards []
                None _ eq_refl Hloop) as Hfl.
  simpl in Hfl. destruct Hfl as (k & Hk & He & Hall).
  exists bd. split; [now destruct Hc|]. exists k, e.
  destruct (efficiency_of_quotient _ _ _ He) as [Hne Hq].
  split; [exact Hk|]. split; [exact Hne|]. split; [exact Hq|].
  intros j bdj Hj. destruct (Hall j bdj Hj) as (ej & Hej & Hlow & Hhigh).
  exists ej. split; [|split; assumption].
  now apply efficiency_of_quotient in Hej.
Qed.

End OptimizerFacts.

(** ** Runs on exact rationals *)

Lemma Q_ltb_lt (a b : Q) : Q_ltb a b = true <-> (a < b)%Q.
Proof.
  unfold Q_ltb. rewrite negb_true_iff, <- not_true_iff_false, Qle_bool_iff.
  split; [apply Qnot_le_lt | apply Qlt_not_le].
Qed.

Lemma Q_ltb_ge (a b : Q) : Q_ltb a b = false <-> (b <= a)%Q.
Proof.
  unfold Q_ltb. rewrite negb_false_iff. apply Qle_bool_iff.
Qed.

Lemma Q_ltb_asym (a b : Q) : Q_ltb a b = true -> Q_ltb b a = false.
Proof.
  rewrite Q_ltb_lt, Q_ltb_ge. apply Qlt_le_weak.
Qed.

Lemma Q_ltb_neg_trans (a b c : Q) :
  Q_ltb a b = true -> Q_ltb c b = false -> Q_ltb a c = true.
Proof.
  rewrite !Q_ltb_lt, Q_ltb_ge. intros H1 H2. eapply Qlt_le_trans; eauto.
Qed.

(** Two copies of a piece that only fits rotated, and one other piece:
    three boards, three entries. *)
Lemma cutting_plan_is_expansion_witness :
  optimize_purchase_Q [(100, 50, 1); (80, 120, 2)] [(130, 90, 5)]
  = Returned [(0, 0, 120, 80, 1%nat, true); (0, 0, 120, 80, 2%nat, true);
              (0, 0, 100, 50, 3%nat, false)]
             [(130, 90, 5); (130, 90, 5); (130, 90, 5)] 15 /\
  Permutation [(80, 120); (80, 120); (100, 50)]
              [(100, 50); (80, 120); (80, 120)].
Proof.
  split; [vm_compute; reflexivity|].
  exact (cutting_plan_is_expansion Q Q_truediv Q_ltb
           [(100, 50, 1); (80, 120, 2)] [(130, 90, 5)]
           [(0, 0, 120, 80, 1%nat, true); (0, 0, 120, 80, 2%nat, true);
            (0, 0, 100, 50, 3%nat, false)]
           [(130, 90, 5); (130, 90, 5); (130, 90, 5)] 15
           ltac:(vm_compute; reflexivity)).
Defined.

(** Two pieces side by side on one board. *)
Lemma placements_within_boards_witness :
  Forall (entry_within [(200, 200, 10)])
         [(0, 0, 100, 50, 1%nat, false); (100, 0, 100, 50, 1%nat, false)].
Proof.
  apply (placements_within_boards Q Q_truediv Q_ltb
           [(100, 50, 2)] [(200, 200, 10)] _ _ 10).
  - repeat constructor.
  - repeat constructor.
  - vm_compute. reflexivity.
Defined.

(** Two boards of one type, one piece each. *)
Lemma cost_and_ordinals_witness :
  6 = sum_costs [(100, 50, 3); (100, 50, 3)] /\
  ([(0, 0, 100, 50, 1%nat, false); (0, 0, 100, 50, 2%nat, false)] <> [] ->
   length [(100, 50, 3); (100, 50, 3)]
   = max_ordinal [(0, 0, 100, 50, 1%nat, false);
                  (0, 0, 100, 50, 2%nat, false)]).
Proof.
  apply (cost_and_ordinals Q Q_truediv Q_ltb [(100, 50, 2)] [(100, 50, 3)]).
  vm_compute. reflexivity.
Defined.

Lemma nothing_required_witness :
  expand [(5, 5, 0)] = [] /\
  optimize_purchase_Q [(5, 5, 0)] [] = Returned [] [] 0.
Proof.
  split; [reflexivity|].
  apply (nothing_required Q Q_truediv Q_ltb [(5, 5, 0)] []).
  reflexivity.
Defined.

(** Scenario D of the specification, through the criterion. *)
Lemma unpackable_iff_witness :
  optimize_purchase_Q [(5000, 5000, 1)] [(200, 200, 10)]
  = Raised UnpackablePiece.
Proof.
  apply (proj2 (unpackable_iff Q Q_truediv Q_ltb
                  [(5000, 5000, 1)] [(200, 200, 10)])).
  exists (initial_state [(5000, 5000, 1)]). split; [constructor|].
  split; [discriminate|]. repeat constructor.
Defined.

(** C8 as stated fails: a piece of area 0 is packed, and the division of
    line 98 raises ZeroDivisionError; the iteration neither raises
    UnpackablePiece nor commits. *)
Lemma zero_area_iteration_raises :
  ~ (iteration Q Q_truediv Q_ltb [(10, 10, 1)] (initial_state [(0, 5, 1)])
     = Raise UnpackablePiece \/
     exists st',
       iteration Q Q_truediv Q_ltb [(10, 10, 1)] (initial_state [(0, 5, 1)])
       = Ok st' /\
       Nat.lt (length (pieces st'))
              (length (pieces (initial_state [(0, 5, 1)])))).
Proof.
  assert (E : iteration Q Q_truediv Q_ltb [(10, 10, 1)]
                (initial_state [(0, 5, 1)]) = Raise ZeroDivisionError)
    by (vm_compute; reflexivity).
  rewrite E. intros [H | (st' & H & _)]; discriminate.
Qed.

Example zero_area_run :
  optimize_purchase_Q [(0, 5, 1)] [(10, 10, 1)] = Raised ZeroDivisionError.
Proof. vm_compute. reflexivity. Qed.

Lemma main_loop_terminates_witness :
  Nat.le (length (expand [(100, 50, 2)])) 7 /\
  while_loop Q Q_truediv Q_ltb 7 [(100, 50, 3)] (initial_state [(100, 50, 2)])
  = optimize_purchase_Q [(100, 50, 2)] [(100, 50, 3)].
Proof.
  split; [simpl; lia|].
  apply (proj1 (proj2 (main_loop_terminates Q Q_truediv Q_ltb
                         [(100, 50, 2)] [(100, 50, 3)]))).
  simpl. lia.
Defined.

(** Three board types for three pieces of 100 x 50.  The first and the
    third pack all three (area 15000) at costs 10 and 9, the second packs
    one (area 5000) at cost 4.  The third is committed: 9/15000 is below
    10/15000 and below 4/5000, although the second is the cheapest board. *)
Lemma lowest_efficiency_first_wins_witness :
  let boards := [(100, 150, 10); (100, 50, 4); (100, 150, 9)] in
  let st := initial_state [(100, 50, 3)] in
  iteration Q Q_truediv Q_ltb boards st
  = Ok {| pieces := [];
          total_cost := 9;
          board_solution := [(100, 150, 9)];
          cutting_plan := [(0, 0, 100, 50, 1%nat, false);
                           (0, 50, 100, 50, 1%nat, false);
                           (0, 100, 100, 50, 1%nat, false)];
          board_count := 1 |} /\
  survivors (pieces st) boards = boards /\
  map (packed_pieces_area (pieces st)) boards = [15000; 5000; 15000] /\
  Q_ltb (9 # 15000) (10 # 15000) = true /\
  Q_ltb (9 # 15000) (4 # 5000) = true.
Proof.
  intros boards st.
  assert (Hit : iteration Q Q_truediv Q_ltb boards st
                = Ok {| pieces := [];
                        total_cost := 9;
                        board_solution := [(100, 150, 9)];
                        cutting_plan := [(0, 0, 100, 50, 1%nat, false);
                                         (0, 50, 100, 50, 1%nat, false);
                                         (0, 100, 100, 50, 1%nat, false)];
                        board_count := 1 |})
    by (vm_compute; reflexivity).
  split; [exact Hit|].
  split; [vm_compute; reflexivity|].
  split; [vm_compute; reflexivity|].
  destruct (lowest_efficiency_first_wins Q Q_truediv Q_ltb boards st _
              Q_ltb_asym Q_ltb_neg_trans Hit)
    as (bd & Hbd & k & e & Hk & _ & He & Hall).
  cbn in Hbd. injection Hbd as <-.
  assert (Hs : survivors (pieces st) boards = boards)
    by (vm_compute; reflexivity).
  rewrite Hs in Hk.
  destruct k as [|[|[|k]]]; simpl in Hk; try discriminate Hk;
    [|destruct k; discriminate Hk].
  clear Hk.
  vm_compute in He. injection He as <-.
  split.
  - destruct (Hall 0%nat (100, 150, 10) eq_refl) as (e0 & He0 & Hlow & _).
    vm_compute in He0. injection He0 as <-. apply Hlow. lia.
  - destruct (Hall 1%nat (100, 50, 4) eq_refl) as (e1 & He1 & Hlow & _).
    vm_compute in He1. injection He1 as <-. apply Hlow. lia.
Defined.

(** * Further properties *)

(** ** Area and overlap on one panel *)

Lemma sum_Z_shift (l : list Z) (a : Z) :
  fold_left Z.add l a = a + sum_Z l.
Proof.
  unfold sum_Z. revert a. induction l as [|x l IH]; intros a; simpl; [lia|].
  rewrite (IH (a + x)), (IH x). lia.
Qed.

Lemma sum_Z_cons (x : Z) (l : list Z) : sum_Z (x :: l) = x + sum_Z l.
Proof. unfold sum_Z at 1. simpl. apply sum_Z_shift. Qed.

Lemma sum_Z_app (l1 l2 : list Z) : sum_Z (l1 ++ l2) = sum_Z l1 + sum_Z l2.
Proof.
  induction l1 as [|x l1 IH]; simpl; [reflexivity|].
  rewrite !sum_Z_cons, IH. lia.
Qed.

Lemma sum_Z_nonneg (l : list Z) : Forall (fun x => 0 <= x) l -> 0 <= sum_Z l.
Proof.
  induction 1 as [|x l Hx _ IH]; [reflexivity|]. rewrite sum_Z_cons. lia.
Qed.

Lemma try_place_area (p : Panel) (pw ph : Z) :
  panel_area (snd (try_place p pw ph)) = panel_area p.
Proof.
  pose proof (try_place_spec p pw ph) as H. unfold first_fit_outcome in H.
  pose proof (try_place_none p pw ph) as Hn.
  destruct (try_place p pw ph) as [[[[[[x y] w] h] rotated]|] p'];
    cbn [fst snd] in *.
  - destruct H as (l1 & l2 & fx & fy & fw & fh & Hfree & _ & Hw & Hh & _ & _
                   & _ & Hfree' & Hpl' & _).
    unfold panel_area. rewrite Hfree, Hfree', Hpl'.
    rewrite !map_app, !sum_Z_app. cbn [map]. rewrite !sum_Z_cons.
    destruct (Z.gtb_spec (fw - w) 0) as [Hr|Hr],
             (Z.gtb_spec (fh - h) 0) as [Hb|Hb];
      cbn [map rect_area placement_area]; rewrite ?sum_Z_cons;
      change (sum_Z []) with 0.
    + lia.
    + replace fh with h by lia. lia.
    + replace fw with w by lia. lia.
    + replace fw with w by lia. replace fh with h by lia. lia.
  - now rewrite Hn.
Qed.

(** On integer coordinates and sizes, every call of [try_place],
    successful or not, on any panel and for any piece, leaves the sum of
    the free and the placed areas as it was: the two strips and the piece
    make up the matched rectangle. *)
Theorem try_place_conserves_area (p : Panel) (pw ph : Z) :
  panel_area (snd (try_place p pw ph)) = panel_area p.
Proof. exact (try_place_area p pw ph). Qed.

(** A piece of 100 x 50 on an empty board of 200 x 200: the piece, the
    right strip and the bottom strip add up to the board. *)
Lemma try_place_conserves_area_witness :
  100 * 50 + 200 * 150 + 100 * 50 = 200 * 200.
Proof.
  exact (try_place_conserves_area (Panel_init 200 200) 100 50).
Defined.

Lemma overlap_sym (a b : rect) : overlap a b -> overlap b a.
Proof.
  destruct a as [[[x1 y1] w1] h1], b as [[[x2 y2] w2] h2]. simpl. lia.
Qed.

Lemma inside_no_overlap (r a c : rect) :
  inside r a -> ~ overlap r c -> ~ overlap a c.
Proof.
  destruct r as [[[xr yr] wr] hr], a as [[[xa ya] wa] ha],
           c as [[[xc yc] wc] hc].
  simpl. lia.
Qed.

Lemma pairwise_disjoint_perm (l l' : list rect) :
  Permutation l l' -> pairwise_disjoint l -> pairwise_disjoint l'.
Proof.
  unfold pairwise_disjoint.
  induction 1 as [|x l l' Hp IH|x y l|l l' l'' _ IH1 _ IH2]; intros H; auto.
  - inversion H as [|a l0 Hx Hl]; subst. constructor; auto.
    eapply Permutation_Forall; eauto.
  - inversion H as [|a l0 Hy Hl]; subst.
    inversion Hl as [|a l0 Hx Hl']; subst.
    inversion Hy as [|b l0 Hyx Hy']; subst.
    constructor; [constructor; auto|constructor; auto].
    intros Ho. apply Hyx. now apply overlap_sym.
Qed.

Lemma pairwise_disjoint_app_l (l1 l2 : list rect) :
  pairwise_disjoint (l1 ++ l2) -> pairwise_disjoint l1.
Proof.
  unfold pairwise_disjoint. induction l1 as [|a l1 IH]; simpl; intros H.
  - constructor.
  - inversion H as [|a0 l0 Ha Hl]; subst. constructor; auto.
    apply Forall_app in Ha. tauto.
Qed.

(** Cutting a rectangle into rectangles that lie inside it and do not
    overlap each other keeps a collection free of overlaps. *)
Lemma pairwise_disjoint_cut (r : rect) (news rest : list rect) :
  pairwise_disjoint (r :: rest) ->
  Forall (inside r) news ->
  pairwise_disjoint news ->
  pairwise_disjoint (news ++ rest).
Proof.
  unfold pairwise_disjoint. intros H Hin Hnews.
  inversion H as [|a l0 Hr Hrest]; subst.
  induction news as [|a news IH]; simpl; [exact Hrest|].
  inversion Hin as [|a0 l0 Ha Hin']; subst.
  inversion Hnews as [|a0 l0 Ha' Hnews']; subst.
  constructor; [|auto].
  apply Forall_app. split; [exact Ha'|].
  eapply Forall_impl; [|exact Hr]. intros c. now apply inside_no_overlap.
Qed.

Lemma regions_before (P l1 l2 : list rect) (r : rect) :
  Permutation (P ++ l1 ++ r :: l2) (r :: P ++ l1 ++ l2).
Proof.
  rewrite !app_assoc. symmetry. apply Permutation_middle.
Qed.

Lemma regions_after (P l1 l2 A B : list rect) (placed : rect) :
  Permutation ((P ++ [placed]) ++ l1 ++ l2 ++ A ++ B)
              ((placed :: A ++ B) ++ P ++ l1 ++ l2).
Proof.
  replace ((P ++ [placed]) ++ l1 ++ l2 ++ A ++ B)
    with (P ++ placed :: l1 ++ l2 ++ A ++ B)
    by (rewrite <- app_assoc; reflexivity).
  rewrite <- Permutation_middle. simpl. constructor.
  replace (P ++ l1 ++ l2 ++ A ++ B) with ((P ++ l1 ++ l2) ++ (A ++ B))
    by (rewrite <- !app_assoc; reflexivity).
  apply Permutation_app_comm.
Qed.

Lemma try_place_disjoint (p : Panel) (pw ph : Z) :
  0 <= pw -> 0 <= ph ->
  pairwise_disjoint (regions p) ->
  pairwise_disjoint (regions (snd (try_place p pw ph))).
Proof.
  intros Hpw Hph Hd.
  pose proof (try_place_spec p pw ph) as H. unfold first_fit_outcome in H.
  pose proof (try_place_none p pw ph) as Hn.
  destruct (try_place p pw ph) as [[[[[[x y] w] h] rotated]|] p'];
    cbn [fst snd] in *; [|now rewrite Hn].
  destruct H as (l1 & l2 & fx & fy & fw & fh & Hfree & _ & Hw & Hh & -> & ->
                 & Hrot & Hfree' & Hpl' & _).
  assert (Hwh : 0 <= w /\ 0 <= h)
    by (destruct Hrot as [(_ & -> & ->) | (_ & -> & -> & _)]; auto).
  unfold regions in *. rewrite Hfree in Hd. rewrite Hfree', Hpl', map_app.
  cbn [map footprint].
  eapply pairwise_disjoint_perm; [symmetry; apply regions_after|].
  eapply pairwise_disjoint_perm in Hd; [|apply regions_before].
  apply (pairwise_disjoint_cut (fx, fy, fw, fh)); [exact Hd| |].
  - constructor; [simpl; lia|].
    apply Forall_app. split.
    + destruct (fw - w >? 0); constructor; [simpl; lia | constructor].
    + destruct (fh - h >? 0); constructor; [simpl; lia | constructor].
  - unfold pairwise_disjoint.
    destruct (fw - w >? 0), (fh - h >? 0); simpl;
      repeat (constructor; try (simpl; lia)).
Qed.

Lemma simulate_disjoint ps : forall panel i acc,
  Forall nonneg_piece ps ->
  pairwise_disjoint (regions panel) ->
  pairwise_disjoint (regions (fst (simulate panel i ps acc))).
Proof.
  induction ps as [|[pw ph] rest IH]; simpl; intros panel i acc Hps Hp; auto.
  inversion Hps as [|q l [Hw Hh] Hrest Heq]; subst q l. simpl in Hw, Hh.
  pose proof (try_place_disjoint panel pw ph Hw Hh Hp) as H.
  destruct (try_place panel pw ph) as [[pl|] panel']; simpl in H; auto.
Qed.

Lemma simulate_fresh_disjoint (W H : Z) (ps : list piece) :
  Forall nonneg_piece ps ->
  pairwise_disjoint (regions (fst (simulate (Panel_init W H) 0 ps []))).
Proof.
  intros Hps. apply simulate_disjoint; [exact Hps|].
  unfold regions, pairwise_disjoint. simpl. repeat constructor.
Qed.

(** On a fresh panel of any integer size, after trying to place any
    sequence of pieces of non-negative integer dimensions, no two of the
    rectangles the panel holds overlap: not two placed pieces, not a placed
    piece and a free rectangle, and not two free rectangles. *)
Theorem panel_regions_disjoint (W H : Z) (ps : list piece) :
  Forall nonneg_piece ps ->
  pairwise_disjoint (regions (fst (simulate (Panel_init W H) 0 ps []))).
Proof. exact (simulate_fresh_disjoint W H ps). Qed.

Lemma panel_regions_disjoint_witness :
  Forall nonneg_piece [(100, 50); (100, 50); (30, 120)] /\
  pairwise_disjoint
    (regions (fst (simulate (Panel_init 200 200) 0
                            [(100, 50); (100, 50); (30, 120)] []))).
Proof.
  assert (H : Forall nonneg_piece [(100, 50); (100, 50); (30, 120)])
    by (repeat constructor; simpl; lia).
  split; [exact H|].
  exact (panel_regions_disjoint 200 200 _ H).
Defined.

Lemma try_place_nonneg_free (p : Panel) (pw ph : Z) :
  0 <= pw -> 0 <= ph ->
  Forall nonneg_rect (free_rectangles p) ->
  Forall nonneg_rect (free_rectangles (snd (try_place p pw ph))).
Proof.
  intros Hpw Hph Hf.
  pose proof (try_place_spec p pw ph) as H. unfold first_fit_outcome in H.
  pose proof (try_place_none p pw ph) as Hn.
  destruct (try_place p pw ph) as [[[[[[x y] w] h] rotated]|] p'];
    cbn [fst snd] in *; [|now rewrite Hn].
  destruct H as (l1 & l2 & fx & fy & fw & fh & Hfree & _ & Hw & Hh & _ & _
                 & Hrot & Hfree' & _).
  assert (Hwh : 0 <= w /\ 0 <= h)
    by (destruct Hrot as [(_ & -> & ->) | (_ & -> & -> & _)]; auto).
  rewrite Hfree in Hf. rewrite Hfree'.
  apply Forall_app in Hf as [H1 H2].
  inversion H2 as [|r l Hr H2' Heq]; subst r l. simpl in Hr.
  repeat (apply Forall_app; split); auto.
  - destruct (Z.gtb_spec (fw - w) 0); constructor; [simpl; lia | constructor].
  - destruct (Z.gtb_spec (fh - h) 0); constructor; [simpl; lia | constructor].
Qed.

Lemma simulate_area ps : forall panel i acc,
  panel_area (fst (simulate panel i ps acc)) = panel_area panel.
Proof.
  induction ps as [|[pw ph] rest IH]; simpl; intros panel i acc; auto.
  pose proof (try_place_area panel pw ph) as H.
  destruct (try_place panel pw ph) as [[pl|] panel']; simpl in H;
    rewrite IH; exact H.
Qed.

Lemma simulate_nonneg_free ps : forall panel i acc,
  Forall nonneg_piece ps ->
  Forall nonneg_rect (free_rectangles panel) ->
  Forall nonneg_rect (free_rectangles (fst (simulate panel i ps acc))).
Proof.
  induction ps as [|[pw ph] rest IH]; simpl; intros panel i acc Hps Hp; auto.
  inversion Hps as [|q l [Hw Hh] Hrest Heq]; subst q l. simpl in Hw, Hh.
  pose proof (try_place_nonneg_free panel pw ph Hw Hh Hp) as H.
  destruct (try_place panel pw ph) as [[pl|] panel']; simpl in H; auto.
Qed.

Lemma packed_area_placements ps bd :
  packed_area ps (snd (packs ps bd))
  = sum_Z (map placement_area (placements (fst (packs ps bd)))).
Proof.
  rewrite packed_area_select.
  destruct (packs_spec ps bd) as (_ & _ & Hmap & _).
  rewrite <- Hmap, map_map. unfold sum_Z. f_equal.
  apply map_ext. intros pl. rewrite unrotated_area.
  destruct pl as [[[[x y] w] h] r]. reflexivity.
Qed.

(** The area packed on one board (line 97) never exceeds the area of the
    board, for pieces of non-negative integer dimensions and a board of
    non-negative integer dimensions. *)
Theorem packed_area_le_board (ps : list piece) (board_width board_height cost : Z) :
  Forall nonneg_piece ps ->
  0 <= board_width -> 0 <= board_height ->
  packed_area ps
    (snd (simulate (Panel_init board_width board_height) 0 ps []))
  <= board_width * board_height.
Proof.
  intros Hps HW HH.
  pose proof (packed_area_placements ps (board_width, board_height, cost)) as E.
  unfold packs in E. rewrite E.
  pose proof (simulate_area ps (Panel_init board_width board_height) 0 []) as Ha.
  assert (Hf : Forall nonneg_rect
                 (free_rectangles
                    (fst (simulate (Panel_init board_width board_height) 0 ps [])))).
  { apply simulate_nonneg_free; [exact Hps|].
    repeat constructor; simpl; lia. }
  unfold panel_area in Ha. cbn [Panel_init free_rectangles placements map] in Ha.
  rewrite sum_Z_cons in Ha. change (sum_Z []) with 0 in Ha.
  cbn [rect_area] in Ha.
  assert (0 <= sum_Z (map rect_area
                        (free_rectangles
                           (fst (simulate (Panel_init board_width board_height)
                                          0 ps []))))).
  { apply sum_Z_nonneg, Forall_map.
    eapply Forall_impl; [|exact Hf].
    intros [[[x y] w] h]. simpl. nia. }
  lia.
Qed.

Lemma packed_area_le_board_witness :
  packed_area [(100, 50); (100, 50); (30, 120)]
    (snd (simulate (Panel_init 200 100) 0 [(100, 50); (100, 50); (30, 120)] []))
  <= 200 * 100.
Proof.
  apply (packed_area_le_board [(100, 50); (100, 50); (30, 120)] 200 100 7).
  - repeat constructor; simpl; lia.
  - lia.
  - lia.
Defined.

Lemma select_nth {A : Type} (d : A) (flags : list bool) :
  forall (pre l : list A),
    length flags = length l ->
    select flags l
    = map (fun i => nth i (pre ++ l) d) (indices_from (length pre) flags).
Proof.
  induction flags as [|b fl IH]; intros pre [|x l] Hlen; simpl in Hlen;
    try discriminate; simpl; [reflexivity|].
  injection Hlen as Hlen.
  specialize (IH (pre ++ [x]) l Hlen).
  rewrite length_app, <- app_assoc in IH. simpl in IH.
  replace (length pre + 1)%nat with (S (length pre)) in IH by lia.
  destruct b; simpl; [|exact IH].
  rewrite IH. f_equal.
  rewrite app_nth2, Nat.sub_diag by lia. reflexivity.
Qed.

(** The simulation for one board: the packed indices are strictly
    increasing and point inside the pending list, and the placements of the
    panel are, in the same order, the pieces at those indices, each in its
    original or its rotated orientation. *)
Theorem simulate_indices (W H : Z) (ps : list piece) :
  let panel := fst (simulate (Panel_init W H) 0 ps []) in
  let packed_indices := snd (simulate (Panel_init W H) 0 ps []) in
  StronglySorted lt packed_indices /\
  Forall (fun i => (i < length ps)%nat) packed_indices /\
  map unrotated (placements panel) = map (fun i => nth i ps (0, 0)) packed_indices.
Proof.
  destruct (packs_spec ps (W, H, 0)) as (Hidx & Hlen & Hmap & _).
  unfold packs, board_flags in *. cbv zeta. rewrite Hidx, Hmap.
  split; [apply indices_from_sorted|].
  split.
  - rewrite <- Hlen. exact (indices_from_lt _ 0%nat).
  - exact (select_nth (0, 0) _ [] ps Hlen).
Qed.

(** ** More on the optimizer *)

Lemma ForallOrdPairs_app {A : Type} (R : A -> A -> Prop) (l1 l2 : list A) :
  ForallOrdPairs R l1 -> ForallOrdPairs R l2 ->
  (forall a b, In a l1 -> In b l2 -> R a b) ->
  ForallOrdPairs R (l1 ++ l2).
Proof.
  intros H1 H2 Hcross. induction H1 as [|a l1 Ha H1 IH]; simpl; [exact H2|].
  constructor.
  - apply Forall_app. split; [exact Ha|].
    apply Forall_forall. intros b Hb. apply Hcross; [now left | exact Hb].
  - apply IH. intros a' b Ha' Hb. apply Hcross; [now right | exact Hb].
Qed.

Lemma ForallOrdPairs_map {A B : Type} (R : B -> B -> Prop) (f : A -> B)
  (l : list A) :
  ForallOrdPairs R (map f l) -> ForallOrdPairs (fun a b => R (f a) (f b)) l.
Proof.
  induction l as [|a l IH]; simpl; intros H; [constructor|].
  inversion H as [|b l0 Ha Hl]; subst. constructor; [|auto].
  apply Forall_forall. intros b Hb.
  rewrite Forall_forall in Ha. apply Ha. now apply in_map.
Qed.

Lemma ForallOrdPairs_map_intro {A B : Type} (R : B -> B -> Prop) (f : A -> B)
  (l : list A) :
  ForallOrdPairs (fun a b => R (f a) (f b)) l -> ForallOrdPairs R (map f l).
Proof.
  induction 1 as [|a l Ha _ IH]; simpl; constructor; [|exact IH].
  apply Forall_map. exact Ha.
Qed.

Lemma ForallOrdPairs_impl {A : Type} (R R' : A -> A -> Prop) (l : list A) :
  (forall a b, R a b -> R' a b) -> ForallOrdPairs R l -> ForallOrdPairs R' l.
Proof.
  intros Himp. induction 1 as [|a l Ha _ IH]; constructor; [|exact IH].
  eapply Forall_impl; [|exact Ha]. intros b. apply Himp.
Qed.

Lemma ForallOrdPairs_nth {A : Type} (R : A -> A -> Prop) (l : list A) :
  ForallOrdPairs R l ->
  forall i j a b, (i < j)%nat ->
    nth_error l i = Some a -> nth_error l j = Some b -> R a b.
Proof.
  induction 1 as [|x l Hx _ IH]; intros i j a b Hij Hi Hj.
  - destruct i; discriminate.
  - destruct j as [|j]; [lia|]. simpl in Hj. destruct i as [|i].
    + injection Hi as <-. rewrite Forall_forall in Hx.
      apply Hx. eapply nth_error_In; eauto.
    + simpl in Hi. apply (IH i j a b); [lia | exact Hi | exact Hj].
Qed.

Lemma entry_rect_tag n pl : entry_rect (tag n pl) = footprint pl.
Proof. destruct pl as [[[[x y] w] h] r]. reflexivity. Qed.

Lemma map_ordinal_tag n pls :
  map ordinal (map (tag n) pls) = repeat n (length pls).
Proof.
  induction pls as [|pl pls IH]; simpl; [reflexivity|].
  now rewrite ordinal_tag, IH.
Qed.

Lemma sorted_app_repeat (l : list nat) (n k : nat) :
  StronglySorted le l -> Forall (fun x => (x <= n)%nat) l ->
  StronglySorted le (l ++ repeat n k).
Proof.
  induction 1 as [|x l Hl IH Hx]; intros Hle; simpl.
  - induction k as [|k IHk]; simpl; constructor; auto.
    apply Forall_forall. intros y Hy. apply repeat_spec in Hy. lia.
  - inversion Hle as [|y l0 Hxn Hle']; subst. constructor; [auto|].
    apply Forall_app. split; [exact Hx|].
    apply Forall_forall. intros y Hy. apply repeat_spec in Hy. lia.
Qed.

Lemma entry_within_ordinal bs e :
  entry_within bs e -> (1 <= ordinal e <= length bs)%nat.
Proof.
  destruct e as [[[[[x y] w] h] b] r]. simpl.
  intros (Hb & bw & bh & c & Hnth & _).
  assert (b - 1 < length bs)%nat by (apply nth_error_Some; congruence).
  lia.
Qed.

Lemma select_indices_length {A : Type} flags : forall (i : nat) (l : list A),
  length flags = length l ->
  length (select flags l) = length (indices_from i flags).
Proof.
  induction flags as [|b fl IH]; intros i [|x l] Hlen; simpl in Hlen;
    try discriminate; simpl; [reflexivity|].
  injection Hlen as Hlen. destruct b; simpl; auto.
Qed.

Lemma select_in {A : Type} flags : forall (l : list A) (x : A),
  In x (select flags l) -> In x l.
Proof.
  induction flags as [|b fl IH]; intros [|y l] x H; simpl in *; try tauto.
  - destruct b; contradiction.
  - destruct b; simpl in *; [destruct H as [H|H]|]; eauto.
Qed.

(** A board that fits the first pending piece packs something. *)
Lemma packs_first (p : piece) (rest : list piece) (bd : board) :
  fits_board p bd = true -> snd (packs (p :: rest) bd) <> [].
Proof.
  intros Hfit. destruct (packs_spec (p :: rest) bd) as (-> & _).
  destruct bd as [[bw bh] c], p as [pw ph]. unfold board_flags. simpl.
  pose proof (try_place_spec (Panel_init bw bh) pw ph) as H.
  unfold first_fit_outcome in H.
  destruct (try_place (Panel_init bw bh) pw ph) as [[pl|] panel'];
    [discriminate|].
  destruct H as [H1 H2]. simpl in H1, H2, Hfit.
  inversion H1 as [|r l Hu _]; subst. inversion H2 as [|r l Hr _]; subst.
  simpl in Hu, Hr. rewrite Hu, Hr in Hfit. discriminate.
Qed.

Lemma fits_board_iff (p : piece) (bd : board) :
  fits_board p bd = true <-> fits_on p bd.
Proof.
  destruct bd as [[bw bh] c]. unfold fits_board, fits_on, fits.
  rewrite orb_true_iff, !andb_true_iff, !Z.geb_le. tauto.
Qed.

Lemma fits_some_iff (boards : list board) (p : piece) :
  fits_some boards p = true <-> exists bd, In bd boards /\ fits_on p bd.
Proof.
  unfold fits_some. rewrite existsb_exists.
  split; intros (bd & Hin & H); exists bd; split; auto;
    now apply fits_board_iff.
Qed.

Lemma fits_some_false (boards : list board) (p : piece) :
  fits_some boards p = false <-> forall bd, In bd boards -> ~ fits_on p bd.
Proof.
  rewrite <- not_true_iff_false, fits_some_iff. split.
  - intros H bd Hin Hf. apply H. eauto.
  - intros H (bd & Hin & Hf). exact (H bd Hin Hf).
Qed.

Lemma repeat_Forall_iff {A : Type} (P : A -> Prop) (x : A) (n : nat) :
  Forall P (repeat x n) <-> ((0 < n)%nat -> P x).
Proof.
  destruct n as [|n]; simpl.
  - split; [lia | constructor].
  - split.
    + intros H _. now inversion H.
    + intros H. apply Forall_forall. intros y Hy.
      assert (y = x) by (apply (repeat_spec (S n)); exact Hy).
      subst. apply H. lia.
Qed.

Lemma repeat_Exists_iff {A : Type} (P : A -> Prop) (x : A) (n : nat) :
  Exists P (repeat x n) <-> ((0 < n)%nat /\ P x).
Proof.
  rewrite Exists_exists. split.
  - intros (y & Hy & Hp). pose proof (repeat_spec _ _ _ Hy). subst.
    split; [|exact Hp]. destruct n; [contradiction | lia].
  - intros [Hn Hp]. exists x. split; [|exact Hp].
    destruct n; [lia | now left].
Qed.

(** A property of all expanded pieces is a property of the entries of
    positive quantity. *)
Lemma expand_Forall_iff (P : piece -> Prop) (required_pieces : list (Z * Z * Z)) :
  Forall P (expand required_pieces) <->
  Forall (fun r => let '(w, h, quantity) := r in 0 < quantity -> P (w, h))
         required_pieces.
Proof.
  induction required_pieces as [|[[w h] q] rest IH]; simpl.
  - split; constructor.
  - rewrite Forall_app, repeat_Forall_iff, IH. split.
    + intros [Hq Hrest]. constructor; [|exact Hrest]. intros Hpos.
      apply Hq. lia.
    + intros H. inversion H as [|r l Hq Hrest]; subst. split; [|exact Hrest].
      intros Hpos. apply Hq. lia.
Qed.

Lemma expand_Exists_iff (P : piece -> Prop) (required_pieces : list (Z * Z * Z)) :
  Exists P (expand required_pieces) <->
  Exists (fun r => let '(w, h, quantity) := r in 0 < quantity /\ P (w, h))
         required_pieces.
Proof.
  induction required_pieces as [|[[w h] q] rest IH]; simpl.
  - split; intros H; inversion H.
  - rewrite Exists_app, repeat_Exists_iff, IH, Exists_cons. split.
    + intros [[Hq Hp]|H]; [left; split; [lia | exact Hp] | right; exact H].
    + intros [[Hq Hp]|H]; [left; split; [lia | exact Hp] | right; exact H].
Qed.

(** ** Grouping the plan by board *)

Lemma split_at {A : Type} (l1 l2 : list A) (x : A) :
  firstn (length l1) (l1 ++ x :: l2) = l1 /\
  skipn (S (length l1)) (l1 ++ x :: l2) = l2.
Proof.
  split.
  - rewrite firstn_app, firstn_all, Nat.sub_diag, firstn_O. apply app_nil_r.
  - replace (S (length l1)) with (length (l1 ++ [x]))
      by (rewrite length_app; simpl; lia).
    replace (l1 ++ x :: l2) with ((l1 ++ [x]) ++ l2)
      by (rewrite <- app_assoc; reflexivity).
    rewrite skipn_app, skipn_all, Nat.sub_diag. reflexivity.
Qed.

Lemma nth_middle_update {A : Type} (l1 l2 : list A) (x y d : A) (j : nat) :
  nth j (l1 ++ y :: l2) d
  = if (j =? length l1)%nat then y else nth j (l1 ++ x :: l2) d.
Proof.
  destruct (Nat.eqb_spec j (length l1)) as [->|Hne].
  - now rewrite app_nth2, Nat.sub_diag by lia.
  - destruct (Nat.lt_ge_cases j (length l1)) as [Hlt|Hge].
    + now rewrite !app_nth1 by lia.
    + rewrite !app_nth2 by lia.
      destruct (j - length l1)%nat as [|m] eqn:E; [lia | reflexivity].
Qed.

Lemma group_append_spec (groups : list (list plan_entry)) (e : plan_entry) :
  match group_append groups e with
  | Some groups' =>
      (1 <= ordinal e <= length groups)%nat /\
      length groups' = length groups /\
      forall k, nth k groups' []
                = nth k groups [] ++ (if (ordinal e =? S k)%nat then [e] else [])
  | None => ordinal e = 0%nat \/ (length groups < ordinal e)%nat
  end.
Proof.
  unfold group_append. destruct (ordinal e) as [|k]; [now left|].
  destruct (nth_error groups k) as [g|] eqn:E.
  - destruct (nth_error_split _ _ E) as (l1 & l2 & -> & <-).
    destruct (split_at l1 l2 g) as [-> ->].
    rewrite !length_app. simpl. split; [lia|]. split; [reflexivity|].
    intros j. rewrite (nth_middle_update l1 l2 g (g ++ [e]) [] j).
    cbn [Nat.eqb]. rewrite (Nat.eqb_sym (length l1) j).
    destruct (Nat.eqb_spec j (length l1)) as [->|Hne].
    + now rewrite app_nth2, Nat.sub_diag by lia.
    + now rewrite app_nil_r.
  - right. apply nth_error_None in E. lia.
Qed.

Lemma group_loop_spec (plan : list plan_entry) :
  forall groups : list (list plan_entry),
    match group_loop groups plan with
    | Some groups' =>
        Forall (fun e => (1 <= ordinal e <= length groups)%nat) plan /\
        length groups' = length groups /\
        forall k, nth k groups' []
                  = nth k groups []
                    ++ filter (fun e => (ordinal e =? S k)%nat) plan
    | None =>
        Exists (fun e => ordinal e = 0%nat \/ (length groups < ordinal e)%nat)
               plan
    end.
Proof.
  induction plan as [|e rest IH]; intros groups; simpl.
  - split; [constructor|]. split; [reflexivity|].
    intros k. now rewrite app_nil_r.
  - pose proof (group_append_spec groups e) as Ha.
    destruct (group_append groups e) as [groups1|]; [|now left].
    destruct Ha as (Hord & Hlen1 & Hnth1).
    specialize (IH groups1).
    destruct (group_loop groups1 rest) as [groups'|].
    + destruct IH as (Hall & Hlen & Hnth). rewrite Hlen1 in *.
      split; [now constructor|]. split; [exact Hlen|].
      intros k. rewrite Hnth, Hnth1, <- app_assoc.
      destruct (ordinal e =? S k)%nat; reflexivity.
    + right. rewrite Hlen1 in IH. exact IH.
Qed.

Lemma group_placements_cases (bs : list board) (cp : list plan_entry) :
  match group_placements bs cp with
  | inl SubplotsValueError => bs = []
  | inl BoardKeyError =>
      bs <> [] /\
      Exists (fun e => ordinal e = 0%nat \/ (length bs < ordinal e)%nat) cp
  | inr groups =>
      bs <> [] /\
      Forall (fun e => (1 <= ordinal e <= length bs)%nat) cp /\
      length groups = length bs /\
      forall k, nth k groups [] = filter (fun e => (ordinal e =? S k)%nat) cp
  end.
Proof.
  unfold group_placements. destruct bs as [|bd bs]; [reflexivity|].
  cbn [length]. set (n := S (length bs)).
  pose proof (group_loop_spec cp (repeat [] n)) as H.
  rewrite repeat_length in H.
  destruct (group_loop (repeat [] n) cp) as [groups|];
    [|split; [discriminate | exact H]].
  destruct H as (Hall & Hlen & Hnth).
  split; [discriminate|]. split; [exact Hall|]. split; [exact Hlen|].
  intros k. rewrite Hnth.
  replace (nth k (repeat [] n) []) with (@nil plan_entry); [reflexivity|].
  generalize n. revert k.
  induction k as [|k IHk]; intros [|m]; simpl; auto.
Qed.

(** [visualize_boards] raises ValueError (from [plt.subplots]) when the
    solution is empty, and KeyError exactly when the solution is not empty
    and some entry of the plan has a board number outside
    1..len(board_solution); otherwise its grouping yields one group per
    board of the solution, the group of board [k] holding the entries
    numbered [k], in plan order. *)
Theorem group_placements_spec (bs : list board) (cp : list plan_entry) :
  match group_placements bs cp with
  | inl SubplotsValueError => bs = []
  | inl BoardKeyError =>
      bs <> [] /\
      Exists (fun e => ordinal e = 0%nat \/ (length bs < ordinal e)%nat) cp
  | inr groups =>
      bs <> [] /\
      Forall (fun e => (1 <= ordinal e <= length bs)%nat) cp /\
      length groups = length bs /\
      forall k, nth k groups [] = filter (fun e => (ordinal e =? S k)%nat) cp
  end.
Proof. exact (group_placements_cases bs cp). Qed.

(** Two boards, three entries, the second board listed between entries of
    the first. *)
Lemma group_placements_spec_witness :
  [(200, 200, 10); (100, 100, 4)] <> [] /\
  Forall (fun e => (1 <= ordinal e <= 2)%nat)
         [(0, 0, 100, 50, 1%nat, false); (0, 0, 80, 80, 2%nat, false);
          (100, 0, 100, 50, 1%nat, false)] /\
  length [[(0, 0, 100, 50, 1%nat, false); (100, 0, 100, 50, 1%nat, false)];
          [(0, 0, 80, 80, 2%nat, false)]] = 2%nat /\
  forall k,
    nth k [[(0, 0, 100, 50, 1%nat, false); (100, 0, 100, 50, 1%nat, false)];
           [(0, 0, 80, 80, 2%nat, false)]] []
    = filter (fun e => (ordinal e =? S k)%nat)
             [(0, 0, 100, 50, 1%nat, false); (0, 0, 80, 80, 2%nat, false);
              (100, 0, 100, 50, 1%nat, false)].
Proof.
  exact (group_placements_spec
           [(200, 200, 10); (100, 100, 4)]
           [(0, 0, 100, 50, 1%nat, false); (0, 0, 80, 80, 2%nat, false);
            (100, 0, 100, 50, 1%nat, false)]).
Defined.

Lemma filter_all {A : Type} (f : A -> bool) (l : list A) :
  Forall (fun x => f x = true) l -> filter f l = l.
Proof.
  induction 1 as [|x l Hx _ IH]; simpl; [reflexivity|]. now rewrite Hx, IH.
Qed.

Lemma filter_none {A : Type} (f : A -> bool) (l : list A) :
  Forall (fun x => f x = false) l -> filter f l = [].
Proof.
  induction 1 as [|x l Hx _ IH]; simpl; [reflexivity|]. now rewrite Hx, IH.
Qed.

(** A plan whose board numbers do not decrease starts with the entries of
    the lowest number. *)
Lemma sorted_split (a : nat) (l : list plan_entry) :
  StronglySorted le (map ordinal l) ->
  Forall (fun e => (a < ordinal e)%nat) l ->
  exists l1 l2, l = l1 ++ l2 /\
                Forall (fun e => ordinal e = S a) l1 /\
                Forall (fun e => (S a < ordinal e)%nat) l2.
Proof.
  induction l as [|e l IH]; simpl; intros Hs Hlow.
  - exists [], []. repeat split; constructor.
  - inversion Hs as [|x xs Hs' Hle]; subst.
    inversion Hlow as [|x xs He Hlow']; subst.
    destruct (Nat.eq_dec (ordinal e) (S a)) as [Heq|Hne].
    + destruct (IH Hs' Hlow') as (l1 & l2 & -> & H1 & H2).
      exists (e :: l1), l2. repeat split; auto.
    + exists [], (e :: l). repeat split; [constructor|].
      constructor; [lia|].
      rewrite Forall_map in Hle. eapply Forall_impl; [|exact Hle].
      simpl. lia.
Qed.

Lemma concat_groups (n : nat) : forall (a : nat) (l : list plan_entry),
  StronglySorted le (map ordinal l) ->
  Forall (fun e => (a < ordinal e <= a + n)%nat) l ->
  concat (map (fun k => filter (fun e => (ordinal e =? S k)%nat) l) (seq a n))
  = l.
Proof.
  induction n as [|n IH]; intros a l Hs Hrange.
  - destruct l as [|e l]; [reflexivity|].
    inversion Hrange; subst. lia.
  - destruct (sorted_split a l Hs) as (l1 & l2 & -> & H1 & H2).
    { eapply Forall_impl; [|exact Hrange]. simpl. lia. }
    cbn [seq map concat]. rewrite filter_app.
    rewrite (filter_all _ l1), (filter_none _ l2), app_nil_r.
    + f_equal. transitivity
        (concat (map (fun k => filter (fun e => (ordinal e =? S k)%nat) l2)
                     (seq (S a) n))).
      * f_equal. apply map_ext_in. intros k Hk. apply in_seq in Hk.
        rewrite filter_app, (filter_none _ l1); [reflexivity|].
        eapply Forall_impl; [|exact H1]. intros e He. cbv beta in *.
        apply Nat.eqb_neq. lia.
      * apply IH.
        -- rewrite map_app in Hs. clear - Hs.
           induction (map ordinal l1) as [|x xs IHx]; simpl in Hs; [exact Hs|].
           inversion Hs; subst. auto.
        -- apply Forall_app in Hrange as [_ Hr2].
           rewrite Forall_forall in *. intros e He.
           specialize (Hr2 e He). specialize (H2 e He). simpl in *. lia.
    + eapply Forall_impl; [|exact H2]. intros e He. cbv beta in *.
      apply Nat.eqb_neq. lia.
    + eapply Forall_impl; [|exact H1]. intros e He. cbv beta in *.
      apply Nat.eqb_eq. exact He.
Qed.

(** ** The shopping list *)

Lemma board_eqb_eq (a b : board) : board_eqb a b = true <-> a = b.
Proof.
  destruct a as [[w1 h1] c1], b as [[w2 h2] c2]. unfold board_eqb.
  rewrite !andb_true_iff, !Z.eqb_eq. split.
  - intros [[-> ->] ->]. reflexivity.
  - intros H. injection H as -> -> ->. auto.
Qed.

Lemma board_eqb_refl (a : board) : board_eqb a a = true.
Proof. now apply board_eqb_eq. Qed.

Lemma board_eqb_neq (a b : board) : board_eqb a b = false <-> a <> b.
Proof.
  rewrite <- board_eqb_eq. destruct (board_eqb a b); split; congruence.
Qed.

Lemma Counter_snoc (l : list board) (bd : board) :
  Counter (l ++ [bd]) = counter_incr bd (Counter l).
Proof. unfold Counter. now rewrite fold_left_app. Qed.

Lemma first_occurrences_in (l : list board) (bd : board) :
  In bd (first_occurrences l) <-> In bd l.
Proof.
  induction l as [|x l IH]; simpl; [tauto|].
  rewrite filter_In, IH, negb_true_iff, board_eqb_neq.
  destruct (board_eqb x bd) eqn:E.
  - apply board_eqb_eq in E. subst. tauto.
  - apply board_eqb_neq in E. tauto.
Qed.

Lemma first_occurrences_NoDup (l : list board) : NoDup (first_occurrences l).
Proof.
  induction l as [|x l IH]; simpl; constructor.
  - rewrite filter_In, negb_true_iff, board_eqb_neq. tauto.
  - now apply NoDup_filter.
Qed.

Lemma first_occurrences_snoc (l : list board) (bd : board) :
  first_occurrences (l ++ [bd])
  = if existsb (board_eqb bd) l then first_occurrences l
    else first_occurrences l ++ [bd].
Proof.
  induction l as [|x l IH]; simpl; [reflexivity|].
  rewrite IH. destruct (board_eqb bd x) eqn:E; simpl.
  - apply board_eqb_eq in E. subst x.
    destruct (existsb (board_eqb bd) l); [reflexivity|].
    rewrite filter_app. simpl. rewrite board_eqb_refl. simpl.
    now rewrite app_nil_r.
  - destruct (existsb (board_eqb bd) l); [reflexivity|].
    rewrite filter_app. simpl.
    assert (E' : board_eqb x bd = false).
    { apply board_eqb_neq. apply board_eqb_neq in E. congruence. }
    rewrite E'. reflexivity.
Qed.

Lemma occurrences_snoc (l : list board) (bd x : board) :
  occurrences x (l ++ [bd])
  = (occurrences x l + if board_eqb x bd then 1 else 0)%nat.
Proof.
  unfold occurrences. rewrite filter_app, length_app. simpl.
  destruct (board_eqb x bd); reflexivity.
Qed.

Lemma occurrences_absent (l : list board) (bd : board) :
  existsb (board_eqb bd) l = false -> occurrences bd l = 0%nat.
Proof.
  intros H. unfold occurrences. rewrite filter_none; [reflexivity|].
  apply Forall_forall. intros x Hx.
  destruct (board_eqb bd x) eqn:E; [|reflexivity].
  assert (existsb (board_eqb bd) l = true)
    by (apply existsb_exists; eauto).
  congruence.
Qed.

(** Incrementing a key that is absent appends it with count 1. *)
Lemma counter_incr_absent (bd : board) (keys : list board) (f : board -> nat) :
  ~ In bd keys ->
  counter_incr bd (map (fun k => (k, f k)) keys)
  = map (fun k => (k, f k)) keys ++ [(bd, 1%nat)].
Proof.
  induction keys as [|k keys IH]; simpl; intros Hn; [reflexivity|].
  destruct (board_eqb k bd) eqn:E.
  - apply board_eqb_eq in E. tauto.
  - rewrite IH by tauto. reflexivity.
Qed.

(** Incrementing a key that is present changes the count of that key. *)
Lemma counter_incr_present (bd : board) (keys : list board) (f : board -> nat) :
  In bd keys -> NoDup keys ->
  counter_incr bd (map (fun k => (k, f k)) keys)
  = map (fun k => (k, (f k + if board_eqb k bd then 1 else 0)%nat)) keys.
Proof.
  induction keys as [|k keys IH]; simpl; intros Hin Hnd; [contradiction|].
  inversion Hnd as [|x xs Hk Hnd']; subst.
  destruct (board_eqb k bd) eqn:E.
  - apply board_eqb_eq in E. subst k.
    rewrite Nat.add_1_r. f_equal.
    apply map_ext_in. intros k Hk'.
    assert (E : board_eqb k bd = false)
      by (apply board_eqb_neq; intros ->; contradiction).
    rewrite E. now rewrite Nat.add_0_r.
  - rewrite Nat.add_0_r. f_equal. apply IH; [|exact Hnd'].
    destruct Hin as [->|Hin]; [|exact Hin].
    rewrite board_eqb_refl in E. discriminate.
Qed.

Lemma Counter_spec (l : list board) :
  Counter l = map (fun bd => (bd, occurrences bd l)) (first_occurrences l).
Proof.
  induction l as [|bd l IH] using rev_ind; [reflexivity|].
  rewrite Counter_snoc, IH, first_occurrences_snoc.
  destruct (existsb (board_eqb bd) l) eqn:E.
  - rewrite (counter_incr_present bd _ (fun k => occurrences k l)).
    + apply map_ext. intros k. now rewrite occurrences_snoc.
    + apply first_occurrences_in. apply existsb_exists in E as (x & Hx & Ex).
      apply board_eqb_eq in Ex. now subst.
    + apply first_occurrences_NoDup.
  - rewrite (counter_incr_absent bd _ (fun k => occurrences k l)).
    + rewrite map_app. simpl. f_equal.
      * apply map_ext_in. intros k Hk. rewrite occurrences_snoc.
        assert (Ek : board_eqb k bd = false).
        { apply board_eqb_neq. intros ->.
          apply (proj1 (first_occurrences_in _ _)) in Hk.
          assert (existsb (board_eqb bd) l = true)
            by (apply existsb_exists; exists bd; split;
                [exact Hk | apply board_eqb_refl]).
          congruence. }
        rewrite Ek. now rewrite Nat.add_0_r.
      * rewrite occurrences_snoc, board_eqb_refl, occurrences_absent by exact E.
        reflexivity.
    + rewrite first_occurrences_in. intros Hin.
      assert (existsb (board_eqb bd) l = true)
        by (apply existsb_exists; exists bd; split;
            [exact Hin | apply board_eqb_refl]).
      congruence.
Qed.

Lemma occurrences_count_occ (bd : board) (l : list board) :
  occurrences bd l = count_occ board_eq_dec l bd.
Proof.
  unfold occurrences. induction l as [|x l IH]; simpl; [reflexivity|].
  destruct (board_eq_dec x bd) as [->|Hne].
  - rewrite board_eqb_refl. simpl. now rewrite IH.
  - assert (E : board_eqb bd x = false)
      by (apply board_eqb_neq; congruence).
    now rewrite E.
Qed.

Lemma first_occurrences_nodup (l : list board) :
  first_occurrences l = rev (nodup board_eq_dec (rev l)).
Proof.
  induction l as [|x l IH] using rev_ind; [reflexivity|].
  rewrite first_occurrences_snoc, rev_app_distr. cbn [rev app nodup].
  destruct (in_dec board_eq_dec x (rev l)) as [Hin|Hnin].
  - assert (E : existsb (board_eqb x) l = true).
    { apply existsb_exists. exists x. split; [|apply board_eqb_refl].
      now apply in_rev. }
    now rewrite E.
  - assert (E : existsb (board_eqb x) l = false).
    { destruct (existsb (board_eqb x) l) eqn:E; [|reflexivity].
      apply existsb_exists in E as (y & Hy & Ey).
      apply board_eqb_eq in Ey. subst y.
      exfalso. apply Hnin. now apply -> in_rev. }
    rewrite E. cbn [rev]. now rewrite IH.
Qed.

(** The items of [Counter(board_solution)], which lines 186-188 print one
    per line: one item for each distinct board of the solution, in the
    order in which the boards first occur, with the number of times the
    board occurs. *)
Theorem Counter_items (bs : list board) :
  Counter bs
  = map (fun bd => (bd, count_occ board_eq_dec bs bd))
        (rev (nodup board_eq_dec (rev bs))).
Proof.
  rewrite Counter_spec, first_occurrences_nodup.
  apply map_ext. intros bd. now rewrite occurrences_count_occ.
Qed.

Lemma Counter_items_witness :
  Counter [(2500, 1250, 19); (2500, 675, 12); (2500, 1250, 19)]
  = [((2500, 1250, 19), 2%nat); ((2500, 675, 12), 1%nat)].
Proof.
  exact (Counter_items [(2500, 1250, 19); (2500, 675, 12); (2500, 1250, 19)]).
Defined.

Lemma counter_incr_totals (bd : board) (counts : list (board * nat)) :
  items_count (counter_incr bd counts) = S (items_count counts) /\
  items_cost (counter_incr bd counts) = items_cost counts + cost_of bd.
Proof.
  unfold items_count, items_cost.
  induction counts as [|[k n] counts [IH1 IH2]];
    cbn -[Z.mul Z.add Z.of_nat]; [split; lia|].
  destruct (board_eqb k bd) eqn:E; cbn -[Z.mul Z.add Z.of_nat].
  - apply board_eqb_eq in E. subst k. split; lia.
  - rewrite IH1, IH2. split; lia.
Qed.

Lemma Counter_totals (bs : list board) :
  items_count (Counter bs) = length bs /\
  items_cost (Counter bs) = sum_costs bs.
Proof.
  induction bs as [|bd bs [IH1 IH2]] using rev_ind; [split; reflexivity|].
  rewrite Counter_snoc.
  destruct (counter_incr_totals bd (Counter bs)) as [-> ->].
  rewrite IH1, IH2, length_app, sum_costs_app. simpl. split; lia.
Qed.

(** The quantities of the shopping list add up to the number of boards of
    the solution, and quantity times unit cost adds up to the sum of their
    costs. *)
Theorem shopping_list_totals (bs : list board) :
  items_count (Counter bs) = length bs /\
  items_cost (Counter bs) = sum_costs bs.
Proof. exact (Counter_totals bs). Qed.

(** ** The order of the pending pieces *)

Lemma insert_desc_sorted (x : piece) (l : list piece) :
  area_desc l -> area_desc (insert_desc area x l).
Proof.
  unfold area_desc. induction 1 as [|y l Hy Hl IH]; simpl.
  - repeat constructor.
  - destruct (Z.geb_spec (area x) (area y)) as [Hge|Hlt].
    + constructor; [|now constructor].
      constructor; [lia|]. eapply Forall_impl; [|exact Hy]. simpl. lia.
    + constructor; [|exact IH].
      eapply Permutation_Forall; [apply insert_desc_perm|].
      constructor; [lia | exact Hy].
Qed.

Lemma sort_desc_sorted (l : list piece) : area_desc (sort_desc area l).
Proof.
  induction l as [|x l IH]; simpl; [constructor|].
  now apply insert_desc_sorted.
Qed.

Lemma select_ordered {A : Type} (R : A -> A -> Prop) flags : forall l,
  ForallOrdPairs R l -> ForallOrdPairs R (select flags l).
Proof.
  induction flags as [|b fl IH]; intros l H; [destruct l; constructor|].
  destruct H as [|x l Hx Hl]; simpl; [destruct b; constructor|].
  destruct b; [constructor|]; auto.
  now apply select_Forall.
Qed.

Lemma entry_area_tag n pl :
  rect_area (entry_rect (tag n pl)) = area (unrotated pl).
Proof.
  rewrite entry_rect_tag, unrotated_area.
  destruct pl as [[[[x y] w] h] r]. reflexivity.
Qed.

Section OptimizerMore.
Variable eff : Type.
Variable truediv : Z -> Z -> option eff.
Variable eff_ltb : eff -> eff -> bool.

Local Abbreviation board_loop' := (board_loop eff truediv eff_ltb).
Local Abbreviation iteration' := (iteration eff truediv eff_ltb).
Local Abbreviation while_loop' := (while_loop eff truediv eff_ltb).
Local Abbreviation reaches' := (reaches eff truediv eff_ltb).
Local Abbreviation optimize_purchase' := (optimize_purchase eff truediv eff_ltb).
Local Abbreviation efficiency_of' := (efficiency_of eff truediv).

Lemma returned_reaches required_pieces available_boards cp bs tc :
  optimize_purchase' required_pieces available_boards = Returned cp bs tc ->
  exists st,
    reaches' available_boards (initial_state required_pieces) st /\
    pieces st = [] /\ cutting_plan st = cp /\ board_solution st = bs /\
    total_cost st = tc.
Proof. apply while_loop_returned. Qed.

Lemma returned_permutation required_pieces available_boards cp bs tc :
  optimize_purchase' required_pieces available_boards = Returned cp bs tc ->
  Permutation (map recovered cp) (expand required_pieces).
Proof.
  intros H. apply returned_reaches in H.
  destruct H as (st' & Hr & Hp & <- & _).
  assert (Hinv : Permutation (map recovered (cutting_plan st') ++ pieces st')
                             (expand required_pieces)).
  { refine (reaches_invariant eff truediv eff_ltb
              (fun s => Permutation (map recovered (cutting_plan s) ++ pieces s)
                                    (expand required_pieces))
              available_boards _ _ _ Hr _).
    - intros st st1 bd Hst Hc. now rewrite (commits_pieces _ _ _ _ Hc).
    - simpl. symmetry. apply sort_desc_perm. }
  now rewrite Hp, app_nil_r in Hinv.
Qed.

Lemma commits_shape boards st st' bd :
  plan_shape boards st -> commits boards st st' bd -> plan_shape boards st'.
Proof.
  intros (Hin & Hn & Hs & Hall) [Hbd Hpacks _ Hplan Hsol _ Hcount].
  destruct (packs_spec (pieces st) bd) as (_ & _ & _ & Hlen & _).
  assert (Hpos : (1 <= length (placements (fst (packs (pieces st) bd))))%nat).
  { rewrite Hlen. destruct (snd (packs (pieces st) bd)); [congruence|].
    simpl. lia. }
  unfold plan_shape.
  rewrite Hsol, Hcount, Hplan, map_app, map_ordinal_tag, length_app.
  split; [apply Forall_app; split; [exact Hin | now constructor]|].
  split; [simpl; lia|]. split.
  - apply sorted_app_repeat; [exact Hs|].
    apply Forall_forall. intros x Hx. apply Hall in Hx. lia.
  - intros n. rewrite in_app_iff, Hall. split.
    + intros [H|H]; [lia|]. apply repeat_spec in H. lia.
    + intros H. destruct (Nat.eq_dec n (S (board_count st))) as [->|Hne].
      * right.
        destruct (length (placements (fst (packs (pieces st) bd))));
          [lia | now left].
      * left. lia.
Qed.

Lemma returned_shape required_pieces available_boards cp bs tc :
  optimize_purchase' required_pieces available_boards = Returned cp bs tc ->
  Forall (fun bd => In bd available_boards) bs /\
  StronglySorted le (map ordinal cp) /\
  (forall n, In n (map ordinal cp) <-> (1 <= n <= length bs)%nat).
Proof.
  intros H. apply returned_reaches in H.
  destruct H as (st' & Hr & _ & <- & <- & _).
  assert (Hinv : plan_shape available_boards st').
  { refine (reaches_invariant eff truediv eff_ltb (plan_shape available_boards)
              available_boards _ _ _ Hr _).
    - intros st st1 bd. apply commits_shape.
    - split; [constructor|]. split; [reflexivity|]. split; [constructor|].
      intros n. simpl. split; [tauto | lia]. }
  destruct Hinv as (Hin & Hn & Hs & Hall).
  rewrite <- Hn. auto.
Qed.

(** Every board of a returned solution is a board type of the catalog; the
    board numbers along the plan never decrease; and the numbers that occur
    in the plan are exactly 1..len(board_solution), so that every purchased
    board carries at least one piece. *)
Theorem solution_from_catalog required_pieces available_boards cp bs tc :
  optimize_purchase' required_pieces available_boards = Returned cp bs tc ->
  Forall (fun bd => In bd available_boards) bs /\
  StronglySorted le (map ordinal cp) /\
  (forall n, In n (map ordinal cp) <-> (1 <= n <= length bs)%nat).
Proof. apply returned_shape. Qed.

(** A successful run never buys more boards than there are pieces. *)
Theorem boards_le_pieces required_pieces available_boards cp bs tc :
  optimize_purchase' required_pieces available_boards = Returned cp bs tc ->
  (length bs <= length (expand required_pieces))%nat.
Proof.
  intros H.
  destruct (returned_shape _ _ _ _ _ H) as (_ & _ & Hall).
  pose proof (returned_permutation _ _ _ _ _ H) as Hperm.
  apply Permutation_length in Hperm. rewrite length_map in Hperm.
  rewrite <- Hperm, <- (length_map ordinal cp), <- (length_seq (length bs) 1).
  apply NoDup_incl_length; [apply seq_NoDup|].
  intros n Hn. apply in_seq in Hn. apply Hall. lia.
Qed.

Lemma packs_disjoint ps bd :
  Forall nonneg_piece ps ->
  pairwise_disjoint (map footprint (placements (fst (packs ps bd)))).
Proof.
  intros Hps. destruct bd as [[bw bh] c]. unfold packs.
  apply (pairwise_disjoint_app_l _
           (free_rectangles (fst (simulate (Panel_init bw bh) 0 ps [])))).
  exact (simulate_fresh_disjoint bw bh ps Hps).
Qed.

Lemma commits_disjoint boards st st' bd :
  plan_within st /\ plan_disjoint (cutting_plan st) ->
  commits boards st st' bd ->
  plan_within st' /\ plan_disjoint (cutting_plan st').
Proof.
  intros [Hw Hd] Hc. split; [eapply commits_within; eauto|].
  destruct Hw as (Hps & Hn & Hcp). destruct Hc as [_ _ _ Hplan _ _ _].
  rewrite Hplan. apply ForallOrdPairs_app; [exact Hd| |].
  - apply ForallOrdPairs_map_intro.
    pose proof (packs_disjoint (pieces st) bd Hps) as Hpd.
    apply ForallOrdPairs_map in Hpd.
    eapply ForallOrdPairs_impl; [|exact Hpd].
    intros pl pl' Hno _. now rewrite !entry_rect_tag.
  - intros e1 e2 H1 H2 Heq. exfalso.
    rewrite Forall_forall in Hcp. apply Hcp, entry_within_ordinal in H1.
    apply in_map_iff in H2 as (pl & <- & _). rewrite ordinal_tag in Heq. lia.
Qed.

(** In a returned plan for pieces of non-negative integer dimensions on
    boards of integer dimensions, two different entries with the same
    board number never overlap. *)
Theorem plan_entries_disjoint required_pieces available_boards cp bs tc :
  Forall (fun r => nonneg_piece (fst r)) required_pieces ->
  optimize_purchase' required_pieces available_boards = Returned cp bs tc ->
  forall i j e1 e2,
    i <> j -> nth_error cp i = Some e1 -> nth_error cp j = Some e2 ->
    ordinal e1 = ordinal e2 ->
    ~ overlap (entry_rect e1) (entry_rect e2).
Proof.
  intros Hreq H. apply returned_reaches in H.
  destruct H as (st' & Hr & _ & <- & _).
  assert (Hinv : plan_within st' /\ plan_disjoint (cutting_plan st')).
  { refine (reaches_invariant eff truediv eff_ltb
              (fun s => plan_within s /\ plan_disjoint (cutting_plan s))
              available_boards _ _ _ Hr _).
    - intros st st1 bd. apply commits_disjoint.
    - split; [|constructor]. repeat split; simpl; auto.
      eapply Permutation_Forall; [apply sort_desc_perm|].
      now apply expand_Forall. }
  destruct Hinv as [_ Hd]. intros i j e1 e2 Hij H1 H2 Heq.
  destruct (Nat.lt_ge_cases i j) as [Hlt|Hge].
  - exact (ForallOrdPairs_nth _ _ Hd i j e1 e2 Hlt H1 H2 Heq).
  - intros Ho. apply overlap_sym in Ho. revert Ho.
    apply (ForallOrdPairs_nth _ _ Hd j i e2 e1); auto. lia.
Qed.

(** ** When the run succeeds *)

Lemma select_area_positive flags : forall ps : list piece,
  Forall positive_piece ps -> select flags ps <> [] ->
  0 < fold_left Z.add (map area (select flags ps)) 0.
Proof.
  intros ps Hps Hne. fold (sum_Z (map area (select flags ps))).
  assert (Hsel : Forall positive_piece (select flags ps))
    by now apply select_Forall.
  destruct (select flags ps) as [|p l]; [congruence|].
  inversion Hsel as [|q l0 [Hw Hh] Hl]; subst.
  simpl. rewrite sum_Z_cons.
  assert (0 <= sum_Z (map area l)).
  { apply sum_Z_nonneg, Forall_map. eapply Forall_impl; [|exact Hl].
    intros [w h] [Hw' Hh']. unfold area. simpl in *. nia. }
  assert (0 < area p) by (unfold area; nia).
  lia.
Qed.

(** With pieces of positive dimensions and costs within range, the
    division of line 98 does not raise. *)
Lemma efficiency_of_ok boards ps bd :
  costs_in_range truediv boards -> In bd boards ->
  Forall positive_piece ps ->
  snd (packs ps bd) <> [] ->
  exists e, efficiency_of' ps bd = Ok e.
Proof.
  intros Hover Hin Hps Hne. unfold efficiency_of, py_truediv.
  assert (Hpos : 0 < packed_area ps (snd (packs ps bd))).
  { rewrite packed_area_select. apply select_area_positive; [exact Hps|].
    destruct (packs_spec ps bd) as (Hidx & Hlen & _).
    intros E. apply Hne. rewrite Hidx.
    pose proof (select_indices_length _ 0%nat _ Hlen) as Hl.
    rewrite E in Hl. simpl in Hl.
    destruct (indices_from 0 (board_flags ps bd)); [reflexivity|discriminate]. }
  destruct (Z.eqb_spec (packed_area ps (snd (packs ps bd))) 0) as [E|E]; [lia|].
  destruct (truediv (cost_of bd) (packed_area ps (snd (packs ps bd)))) eqn:Et.
  - eauto.
  - exfalso. unfold costs_in_range in Hover. rewrite Forall_forall in Hover.
    exact (Hover bd Hin _ Hpos Et).
Qed.

Lemma iteration_raise_positive boards st e :
  costs_in_range truediv boards -> Forall positive_piece (pieces st) ->
  iteration' boards st = Raise e -> e = UnpackablePiece.
Proof.
  intros Hover Hps H. unfold iteration in H.
  destruct (board_loop' (pieces st) boards None)
    as [[[[[e0 [[bw bh] c]] panel] idx]|]|err] eqn:Eb; try discriminate.
  - now injection H as <-.
  - injection H as ->.
    destruct (board_loop_raise_source _ _ _ _ _ _ _ Eb) as (bd & Hin & Hne & He).
    destruct (efficiency_of_ok boards _ bd Hover Hin Hps Hne) as (e' & He').
    congruence.
Qed.

Lemma iteration_progress boards st :
  costs_in_range truediv boards -> placeable boards st -> pieces st <> [] ->
  exists st', iteration' boards st = Ok st'.
Proof.
  intros Hover Hpl Hne.
  assert (Hps : Forall positive_piece (pieces st))
    by (eapply Forall_impl; [|exact Hpl]; simpl; tauto).
  destruct (iteration' boards st) as [st'|e] eqn:E; [eauto|].
  rewrite (iteration_raise_positive _ _ _ Hover Hps E) in E.
  apply iteration_unpackable in E.
  destruct (pieces st) as [|p rest] eqn:Ep; [congruence|].
  unfold placeable in Hpl. rewrite Ep in Hpl.
  inversion Hpl as [|q l Hq _]; subst. destruct Hq as [_ Hfit].
  apply existsb_exists in Hfit as (bd & Hin & Hfit).
  rewrite Forall_forall in E. specialize (E bd Hin).
  now apply packs_first with (rest := rest) in Hfit.
Qed.

Lemma commits_placeable boards st st' bd :
  placeable boards st -> commits boards st st' bd -> placeable boards st'.
Proof.
  intros Hpl [_ _ Hpieces _ _ _ _]. unfold placeable.
  rewrite Hpieces. now apply select_Forall.
Qed.

Lemma placeable_returns boards fuel : forall st,
  costs_in_range truediv boards -> placeable boards st ->
  (length (pieces st) <= fuel)%nat ->
  exists cp bs tc, while_loop' fuel boards st = Returned cp bs tc.
Proof.
  induction fuel as [|fuel IH]; intros st Hover Hpl Hlen.
  - destruct (pieces st) as [|p ps] eqn:Ep; simpl in Hlen; [|lia].
    simpl. rewrite Ep. eauto.
  - destruct (pieces st) as [|p ps] eqn:Ep.
    + simpl. rewrite Ep. eauto.
    + destruct (iteration_progress boards st Hover Hpl) as (st' & Hit);
        [congruence|].
      simpl. rewrite Ep, Hit.
      pose proof (iteration_shrinks _ _ _ _ _ _ Hit) as Hs.
      rewrite Ep in Hs. simpl in Hs, Hlen.
      destruct (iteration_ok _ _ _ _ _ _ Hit) as (e & bd & _ & Hc).
      apply IH; [exact Hover | eapply commits_placeable; eauto | lia].
Qed.

Lemma returned_fits required_pieces available_boards cp bs tc :
  Forall (fun r => nonneg_piece (fst r)) required_pieces ->
  optimize_purchase' required_pieces available_boards = Returned cp bs tc ->
  Forall (fun p => fits_some available_boards p = true) (expand required_pieces).
Proof.
  intros Hreq H.
  pose proof (returned_permutation _ _ _ _ _ H) as Hperm.
  destruct (returned_shape _ _ _ _ _ H) as (Hcat & _).
  pose proof (plan_within_nonneg _ _ _ _ _ _ _ _ Hreq H) as Hin.
  eapply Permutation_Forall; [exact Hperm|].
  apply Forall_map. eapply Forall_impl; [|exact Hin].
  intros [[[[[x y] w] h] b] r] (Hb & bw & bh & c & Hnth & Hx & Hy & Hw & Hh).
  apply nth_error_In in Hnth. rewrite Forall_forall in Hcat.
  apply existsb_exists. exists (bw, bh, c). split; [auto|].
  unfold fits_board, fits. apply orb_true_iff.
  destruct r; simpl; [right|left]; apply andb_true_iff;
    split; apply Z.geb_le; lia.
Qed.

Lemma initial_pieces_Forall (P : piece -> Prop) required_pieces :
  Forall P (expand required_pieces) ->
  Forall P (pieces (initial_state required_pieces)).
Proof.
  intros H. simpl. eapply Permutation_Forall; [apply sort_desc_perm | exact H].
Qed.

Lemma positive_nonneg (required_pieces : list (Z * Z * Z)) :
  Forall (fun r => positive_piece (fst r)) required_pieces ->
  Forall (fun r => nonneg_piece (fst r)) required_pieces.
Proof.
  apply Forall_impl. intros [[w h] q]. unfold positive_piece, nonneg_piece.
  simpl. lia.
Qed.

Lemma succeeds_iff required_pieces available_boards :
  costs_in_range truediv available_boards ->
  Forall (fun r => positive_piece (fst r)) required_pieces ->
  ((exists cp bs tc,
       optimize_purchase' required_pieces available_boards = Returned cp bs tc)
   <->
   Forall (fun p => fits_some available_boards p = true)
          (expand required_pieces)).
Proof.
  intros Hover Hreq. split.
  - intros (cp & bs & tc & H).
    eapply returned_fits; [apply positive_nonneg, Hreq | exact H].
  - intros Hfit. unfold optimize_purchase.
    apply placeable_returns; [exact Hover| |lia].
    apply initial_pieces_Forall.
    pose proof (expand_Forall positive_piece _ Hreq) as Hpos.
    rewrite Forall_forall in *. auto.
Qed.

Lemma fails_iff required_pieces available_boards :
  costs_in_range truediv available_boards ->
  Forall (fun r => positive_piece (fst r)) required_pieces ->
  (optimize_purchase' required_pieces available_boards = Raised UnpackablePiece
   <->
   Exists (fun p => fits_some available_boards p = false)
          (expand required_pieces)).
Proof.
  intros Hover Hreq. split.
  - intros H.
    assert (Hn : ~ Forall (fun p => fits_some available_boards p = true)
                          (expand required_pieces)).
    { intros Hfit. apply (succeeds_iff _ _ Hover Hreq) in Hfit.
      destruct Hfit as (cp & bs & tc & Hret). congruence. }
    apply neg_Forall_Exists_neg in Hn; [|intros p; apply bool_dec].
    eapply Exists_impl; [|exact Hn].
    intros p Hp. now apply not_true_is_false.
  - intros Hex.
    destruct (optimize_purchase' required_pieces available_boards)
      as [cp bs tc|e|] eqn:E.
    + exfalso.
      pose proof (returned_fits _ _ _ _ _ (positive_nonneg _ Hreq) E) as Hfit.
      apply Exists_exists in Hex as (p & Hin & Hp).
      rewrite Forall_forall in Hfit. specialize (Hfit p Hin). congruence.
    + f_equal. unfold optimize_purchase in E.
      apply while_loop_raised in E. destruct E as (st & Hr & _ & Hit).
      eapply iteration_raise_positive; [exact Hover| |exact Hit].
      refine (reaches_invariant eff truediv eff_ltb
                (fun s => Forall positive_piece (pieces s))
                available_boards _ _ _ Hr _).
      * intros s s1 bd Hs [_ _ Hpieces _ _ _ _]. rewrite Hpieces.
        now apply select_Forall.
      * apply initial_pieces_Forall. now apply expand_Forall.
    + exfalso. unfold optimize_purchase in E.
      now apply (while_loop_fuel_enough eff truediv eff_ltb available_boards
                   _ (initial_state required_pieces) (Nat.le_refl _)).
Qed.

(** For integer inputs with pieces of positive dimensions and catalog
    costs within the float range, the run succeeds exactly when every
    required piece of positive quantity is, as it is or turned by 90
    degrees, no wider and no higher than some board of the catalog. *)
Theorem succeeds_iff_all_fit required_pieces available_boards :
  costs_in_range truediv available_boards ->
  Forall (fun r => positive_piece (fst r)) required_pieces ->
  ((exists cp bs tc,
       optimize_purchase' required_pieces available_boards = Returned cp bs tc)
   <->
   Forall (fun r => let '(w, h, quantity) := r in
                    0 < quantity ->
                    exists bd, In bd available_boards /\ fits_on (w, h) bd)
          required_pieces).
Proof.
  intros Hover Hreq. rewrite (succeeds_iff _ _ Hover Hreq).
  rewrite expand_Forall_iff. split; apply Forall_impl;
    intros [[w h] q] H Hq; apply fits_some_iff; auto.
Qed.

(** Under the same conditions the run raises UnpackablePiece exactly when
    some required piece of positive quantity is, in both orientations,
    wider or higher than every board of the catalog; no other error is
    raised. *)
Theorem fails_iff_some_fits_nowhere required_pieces available_boards :
  costs_in_range truediv available_boards ->
  Forall (fun r => positive_piece (fst r)) required_pieces ->
  (optimize_purchase' required_pieces available_boards = Raised UnpackablePiece
   <->
   Exists (fun r => let '(w, h, quantity) := r in
                    0 < quantity /\
                    forall bd, In bd available_boards -> ~ fits_on (w, h) bd)
          required_pieces).
Proof.
  intros Hover Hreq. rewrite (fails_iff _ _ Hover Hreq).
  rewrite expand_Exists_iff. split; apply Exists_impl;
    intros [[w h] q] [Hq H]; (split; [exact Hq|]); apply fits_some_false;
    exact H.
Qed.

Lemma returned_accounts required_pieces available_boards cp bs tc :
  optimize_purchase' required_pieces available_boards = Returned cp bs tc ->
  tc = sum_costs bs.
Proof.
  intros H. apply returned_reaches in H.
  destruct H as (st' & Hr & _ & _ & <- & <-).
  refine (proj1 (reaches_invariant eff truediv eff_ltb accounts
                   available_boards _ _ _ Hr _)).
  - intros st st1 bd. apply commits_accounts.
  - repeat split.
Qed.

Lemma expand_nil (required_pieces : list (Z * Z * Z)) :
  expand required_pieces = [] ->
  Forall (fun r => let '(_, _, quantity) := r in quantity <= 0) required_pieces.
Proof.
  induction required_pieces as [|[[w h] q] rest IH]; simpl; intros H;
    [constructor|].
  apply app_eq_nil in H as [Hq Hrest]. constructor; [|auto].
  destruct q as [|q|q]; try lia.
  simpl in Hq. destruct (Pos2Nat.is_succ q) as (n & Hn).
  rewrite Hn in Hq. discriminate.
Qed.

(** For the plan and the solution of a successful run, [visualize_boards]
    raises no KeyError.  It raises the ValueError of [plt.subplots] when
    nothing was required (every quantity is at most 0: the plan and the
    solution are empty).  Otherwise its grouping yields one non-empty group
    per purchased board, and the groups, concatenated in board order, are
    the plan itself. *)
Theorem returned_plan_groups required_pieces available_boards cp bs tc :
  optimize_purchase' required_pieces available_boards = Returned cp bs tc ->
  match group_placements bs cp with
  | inl SubplotsValueError =>
      cp = [] /\ bs = [] /\
      Forall (fun r => let '(_, _, quantity) := r in quantity <= 0)
             required_pieces
  | inl BoardKeyError => False
  | inr groups =>
      length groups = length bs /\
      Forall (fun g => g <> []) groups /\
      concat groups = cp
  end.
Proof.
  intros H. destruct (returned_shape _ _ _ _ _ H) as (_ & Hs & Hall).
  pose proof (returned_permutation _ _ _ _ _ H) as Hperm.
  pose proof (group_placements_cases bs cp) as Hg.
  destruct (group_placements bs cp) as [[|]|groups].
  - subst bs.
    assert (Hcp : cp = []).
    { destruct cp as [|e cp]; [reflexivity|].
      assert (Hord : In (ordinal e) (map ordinal (e :: cp))) by now left.
      apply Hall in Hord. simpl in Hord. lia. }
    subst cp. split; [reflexivity|]. split; [reflexivity|].
    apply expand_nil. apply Permutation_nil. exact Hperm.
  - destruct Hg as [_ Hg]. apply Exists_exists in Hg as (e & Hin & He).
    assert (Hord : In (ordinal e) (map ordinal cp)) by now apply in_map.
    apply Hall in Hord. lia.
  - destruct Hg as (_ & Hf & Hlen & Hnth).
    split; [exact Hlen|]. split.
    + apply Forall_forall. intros g Hin.
      destruct (In_nth _ _ [] Hin) as (k & Hk & <-).
      rewrite Hnth.
      assert (Hord : In (S k) (map ordinal cp)) by (apply Hall; lia).
      apply in_map_iff in Hord as (e & He & Hin').
      assert (Hfil : In e (filter (fun e => (ordinal e =? S k)%nat) cp))
        by (apply filter_In; split; [exact Hin' | now apply Nat.eqb_eq]).
      intros E. rewrite E in Hfil. contradiction.
    + assert (Hgroups :
                groups = map (fun k => filter (fun e => (ordinal e =? S k)%nat) cp)
                             (seq 0 (length bs))).
      { apply (nth_ext _ _ [] (filter (fun e => (ordinal e =? 1)%nat) cp)).
        - now rewrite length_map, length_seq.
        - intros k Hk. rewrite Hnth.
          rewrite (map_nth (fun k => filter (fun e => (ordinal e =? S k)%nat) cp)
                           (seq 0 (length bs)) 0%nat k).
          rewrite seq_nth by lia. reflexivity. }
      rewrite Hgroups. apply concat_groups; [exact Hs|].
      eapply Forall_impl; [|exact Hf]. intros e He. cbv beta in *. lia.
Qed.

Lemma commits_area_desc boards st st' bd :
  plan_shape boards st /\ area_desc (pieces st) /\
  plan_area_desc (cutting_plan st) ->
  commits boards st st' bd ->
  plan_shape boards st' /\ area_desc (pieces st') /\
  plan_area_desc (cutting_plan st').
Proof.
  intros (Hshape & Hps & Hcp) Hc.
  split; [eapply commits_shape; eauto|].
  destruct Hshape as (_ & _ & _ & Hall).
  destruct Hc as [_ _ Hpieces Hplan _ _ _].
  destruct (packs_spec (pieces st) bd) as (_ & _ & Hmap & _).
  rewrite Hpieces, Hplan. split; [now apply select_ordered|].
  apply ForallOrdPairs_app; [exact Hcp| |].
  - apply ForallOrdPairs_map_intro.
    pose proof (select_ordered _ (board_flags (pieces st) bd) _ Hps) as Hsel.
    rewrite <- Hmap in Hsel. apply ForallOrdPairs_map in Hsel.
    eapply ForallOrdPairs_impl; [|exact Hsel].
    intros pl pl' Hle _. now rewrite !entry_area_tag.
  - intros e1 e2 H1 H2 Heq. exfalso.
    assert (Hord : In (ordinal e1) (map ordinal (cutting_plan st)))
      by now apply in_map.
    apply Hall in Hord.
    apply in_map_iff in H2 as (pl & <- & _). rewrite ordinal_tag in Heq. lia.
Qed.

(** The pieces are packed in the order of the sort of line 70: of two
    entries of a returned plan with the same board number, the later one
    never has the larger area. *)
Theorem plan_area_order required_pieces available_boards cp bs tc :
  optimize_purchase' required_pieces available_boards = Returned cp bs tc ->
  forall i j e1 e2,
    (i < j)%nat -> nth_error cp i = Some e1 -> nth_error cp j = Some e2 ->
    ordinal e1 = ordinal e2 ->
    rect_area (entry_rect e2) <= rect_area (entry_rect e1).
Proof.
  intros H. apply returned_reaches in H.
  destruct H as (st' & Hr & _ & <- & _).
  assert (Hinv : plan_shape available_boards st' /\ area_desc (pieces st') /\
                 plan_area_desc (cutting_plan st')).
  { refine (reaches_invariant eff truediv eff_ltb
              (fun s => plan_shape available_boards s /\ area_desc (pieces s) /\
                        plan_area_desc (cutting_plan s))
              available_boards _ _ _ Hr _).
    - intros st st1 bd. apply commits_area_desc.
    - split; [|split; [apply sort_desc_sorted | constructor]].
      split; [constructor|]. split; [reflexivity|]. split; [constructor|].
      intros n. simpl. split; [tauto | lia]. }
  destruct Hinv as (_ & _ & Hd). intros i j e1 e2 Hij H1 H2 Heq.
  exact (ForallOrdPairs_nth _ _ Hd i j e1 e2 Hij H1 H2 Heq).
Qed.

(** For integer costs, the items of the shopping list of a returned
    solution add up, quantity times unit cost, to the returned total
    cost. *)
Theorem shopping_list_cost_is_total required_pieces available_boards cp bs tc :
  optimize_purchase' required_pieces available_boards = Returned cp bs tc ->
  items_cost (Counter bs) = tc.
Proof.
  intros H. rewrite (returned_accounts _ _ _ _ _ H).
  apply Counter_totals.
Qed.

End OptimizerMore.

(** ** Runs on exact rationals, continued *)

Lemma Q_truediv_in_range (boards : list board) :
  costs_in_range Q_truediv boards.
Proof. apply Forall_forall. intros bd _ packed _. discriminate. Qed.

(** Two boards of one type, one piece each. *)
Lemma solution_from_catalog_witness :
  Forall (fun bd => In bd [(100, 50, 3)]) [(100, 50, 3); (100, 50, 3)] /\
  StronglySorted le
    (map ordinal [(0, 0, 100, 50, 1%nat, false); (0, 0, 100, 50, 2%nat, false)])
  /\
  (forall n,
      In n (map ordinal [(0, 0, 100, 50, 1%nat, false);
                         (0, 0, 100, 50, 2%nat, false)])
      <-> (1 <= n <= length [(100, 50, 3); (100, 50, 3)])%nat).
Proof.
  apply (solution_from_catalog Q Q_truediv Q_ltb
           [(100, 50, 2)] [(100, 50, 3)]
           [(0, 0, 100, 50, 1%nat, false); (0, 0, 100, 50, 2%nat, false)]
           [(100, 50, 3); (100, 50, 3)] 6).
  vm_compute. reflexivity.
Defined.

Lemma boards_le_pieces_witness :
  Nat.le (length [(100, 100, 4)]) (length (expand [(100, 50, 2)])).
Proof.
  apply (boards_le_pieces Q Q_truediv Q_ltb
           [(100, 50, 2)] [(200, 200, 10); (100, 100, 4)]
           [(0, 0, 100, 50, 1%nat, false); (0, 50, 100, 50, 1%nat, false)]
           [(100, 100, 4)] 4).
  vm_compute. reflexivity.
Defined.

(** Two pieces stacked on one board. *)
Lemma plan_entries_disjoint_witness :
  ~ overlap (entry_rect (0, 0, 100, 50, 1%nat, false))
            (entry_rect (0, 50, 100, 50, 1%nat, false)).
Proof.
  apply (plan_entries_disjoint Q Q_truediv Q_ltb
           [(100, 50, 2)] [(200, 200, 10); (100, 100, 4)]
           [(0, 0, 100, 50, 1%nat, false); (0, 50, 100, 50, 1%nat, false)]
           [(100, 100, 4)] 4) with (i := 0%nat) (j := 1%nat).
  - repeat constructor; simpl; lia.
  - vm_compute. reflexivity.
  - discriminate.
  - reflexivity.
  - reflexivity.
  - reflexivity.
Defined.

(** A piece that fits only after rotation, and an entry of quantity 0 that
    fits nowhere. *)
Lemma succeeds_iff_all_fit_witness :
  exists cp bs tc,
    optimize_purchase_Q [(80, 120, 1); (5000, 5000, 0)] [(130, 90, 5)]
    = Returned cp bs tc.
Proof.
  apply (proj2 (succeeds_iff_all_fit Q Q_truediv Q_ltb
                  [(80, 120, 1); (5000, 5000, 0)] [(130, 90, 5)]
                  (Q_truediv_in_range _)
                  ltac:(repeat constructor; simpl; lia))).
  constructor; [|constructor; [|constructor]].
  - intros _. exists (130, 90, 5). split; [now left|]. right. simpl. lia.
  - intros Hq. lia.
Defined.

(** The second piece fits no board. *)
Lemma fails_iff_some_fits_nowhere_witness :
  optimize_purchase_Q [(100, 50, 1); (5000, 5000, 1)] [(200, 200, 10)]
  = Raised UnpackablePiece.
Proof.
  apply (proj2 (fails_iff_some_fits_nowhere Q Q_truediv Q_ltb
                  [(100, 50, 1); (5000, 5000, 1)] [(200, 200, 10)]
                  (Q_truediv_in_range _)
                  ltac:(repeat constructor; simpl; lia))).
  apply Exists_cons_tl. apply Exists_cons_hd.
  split; [lia|]. intros bd [<-|[]]. simpl. lia.
Defined.

(** Two boards with one piece each; and a run with nothing required. *)
Lemma returned_plan_groups_witness :
  (length [[(0, 0, 100, 50, 1%nat, false)]; [(0, 0, 100, 50, 2%nat, false)]]
   = length [(100, 50, 3); (100, 50, 3)] /\
   Forall (fun g : list plan_entry => g <> [])
          [[(0, 0, 100, 50, 1%nat, false)]; [(0, 0, 100, 50, 2%nat, false)]] /\
   concat [[(0, 0, 100, 50, 1%nat, false)]; [(0, 0, 100, 50, 2%nat, false)]]
   = [(0, 0, 100, 50, 1%nat, false); (0, 0, 100, 50, 2%nat, false)]) /\
  (@nil plan_entry = [] /\ @nil board = [] /\
   Forall (fun r : Z * Z * Z => let '(_, _, quantity) := r in quantity <= 0)
          [(5, 5, 0)]).
Proof.
  split.
  - exact (returned_plan_groups Q Q_truediv Q_ltb
             [(100, 50, 2)] [(100, 50, 3)]
             [(0, 0, 100, 50, 1%nat, false); (0, 0, 100, 50, 2%nat, false)]
             [(100, 50, 3); (100, 50, 3)] 6 ltac:(vm_compute; reflexivity)).
  - exact (returned_plan_groups Q Q_truediv Q_ltb
             [(5, 5, 0)] [(100, 50, 3)] [] [] 0 ltac:(vm_compute; reflexivity)).
Defined.

Lemma shopping_list_cost_is_total_witness :
  items_cost (Counter [(100, 50, 3); (100, 50, 3)]) = 6.
Proof.
  apply (shopping_list_cost_is_total Q Q_truediv Q_ltb
           [(100, 50, 2)] [(100, 50, 3)]
           [(0, 0, 100, 50, 1%nat, false); (0, 0, 100, 50, 2%nat, false)]).
  vm_compute. reflexivity.
Defined.

Lemma plan_area_order_witness :
  rect_area (entry_rect (100, 0, 100, 50, 1%nat, false))
  <= rect_area (entry_rect (0, 0, 100, 100, 1%nat, false)).
Proof.
  apply (plan_area_order Q Q_truediv Q_ltb
           [(100, 50, 1); (100, 100, 1)] [(200, 100, 10)]
           [(0, 0, 100, 100, 1%nat, false); (100, 0, 100, 50, 1%nat, false)]
           [(200, 100, 10)] 10) with (i := 0%nat) (j := 1%nat).
  - vm_compute. reflexivity.
  - lia.
  - reflexivity.
  - reflexivity.
  - reflexivity.
Defined.

(** * Runs on floats

    What depends on exact arithmetic holds of integer inputs only.  The
    runs below are the program on float inputs, where the rounding of
    [fx + w], [fw - w], of the sums of areas and of the running cost
    shows. *)

Section FloatRuns.
Local Open Scope float_scope.

(** C2 as stated fails on float dimensions.  The strip to the right of a
    piece of width 0.6 on a board of width 1.7 has width 1.7 - 0.6, which
    rounds to 1.1; a piece of width 1.1 is accepted there, and it ends at
    0.6 + 1.1 = 1.7000000000000002, beyond the board. *)
Lemma float_placement_beyond_board :
  Float64.optimize_purchase [(0.6, 1, 1%Z); (1.1, 0.5, 1%Z)] [(1.7, 1, 10)]
  = Float64.Returned
      [(0, 0, 0.6, 1, 1%nat, false); (0.6, 0, 1.1, 0.5, 1%nat, false)]
      [(1.7, 1, 10)] 10 /\
  ~ Forall (fun e : Float64.plan_entry =>
              let '(x, y, w, h, _, _) := e in
              (0 <=? x) = true /\ (0 <=? y) = true /\
              (x + w <=? 1.7) = true /\ (y + h <=? 1) = true)
           [(0, 0, 0.6, 1, 1%nat, false); (0.6, 0, 1.1, 0.5, 1%nat, false)].
Proof.
  split; [vm_compute; reflexivity|].
  intros H. rewrite Forall_forall in H.
  specialize (H (0.6, 0, 1.1, 0.5, 1%nat, false) (or_intror (or_introl eq_refl))).
  cbv beta iota in H. destruct H as (_ & _ & Hx & _).
  vm_compute in Hx. discriminate Hx.
Qed.

(** On floats a call of [try_place] can change the total of the free and
    the placed areas: 0.6 + 1.1 is not 1.7. *)
Example float_area_not_conserved :
  Float64.try_place (Float64.Panel_init 1.7 1) 0.6 1
  = (Some (0, 0, 0.6, 1, false),
     {| Float64.width := 1.7; Float64.height := 1;
        Float64.free_rectangles := [(0.6, 0, 1.1, 1)];
        Float64.placements := [(0, 0, 0.6, 1, false)] |}) /\
  (1.1 * 1 + 0.6 * 1 =? 1.7 * 1) = false.
Proof. split; vm_compute; reflexivity. Qed.

(** On floats two entries of one board can overlap: the third piece,
    placed at height 0.6 with height 1.1, reaches 1.7000000000000002 and
    runs into the fourth, which starts at 1.7. *)
Example float_entries_overlap :
  Float64.optimize_purchase
    [(1, 1.7, 1%Z); (1, 0.6, 1%Z); (0.5, 1.1, 1%Z); (2, 0.2, 1%Z)]
    [(2, 2.7, 5)]
  = Float64.Returned
      [(0, 0, 1, 1.7, 1%nat, false); (1, 0, 1, 0.6, 1%nat, false);
       (1, 0.6, 0.5, 1.1, 1%nat, false); (0, 1.7, 2, 0.2, 1%nat, false)]
      [(2, 2.7, 5)] 5 /\
  ((1 <? 0 + 2) && (0 <? 1 + 0.5) && (0.6 <? 1.7 + 0.2) && (1.7 <? 0.6 + 1.1))
  = true.
Proof. split; vm_compute; reflexivity. Qed.

(** On floats the packed area of line 97 can exceed the area of the
    board. *)
Example float_packed_area_exceeds_board :
  Float64.simulate (Float64.Panel_init 2.4 1) 0
                   [(0.9, 1); (0.8, 1); (0.7, 1)] []
  = (fst (Float64.simulate (Float64.Panel_init 2.4 1) 0
                           [(0.9, 1); (0.8, 1); (0.7, 1)] []),
     [0%nat; 1%nat; 2%nat]) /\
  (2.4 * 1 <? Float64.packed_area [(0.9, 1); (0.8, 1); (0.7, 1)]
                                  [0%nat; 1%nat; 2%nat]) = true.
Proof. split; vm_compute; reflexivity. Qed.

(** On floats the running total of ten boards of cost 0.1 is
    0.9999999999999999, while ten times 0.1 is 1. *)
Example float_total_cost_rounds :
  Float64.optimize_purchase [(1, 1, 10%Z)] [(1, 1, 0.1)]
  = Float64.Returned
      [(0, 0, 1, 1, 1%nat, false); (0, 0, 1, 1, 2%nat, false);
       (0, 0, 1, 1, 3%nat, false); (0, 0, 1, 1, 4%nat, false);
       (0, 0, 1, 1, 5%nat, false); (0, 0, 1, 1, 6%nat, false);
       (0, 0, 1, 1, 7%nat, false); (0, 0, 1, 1, 8%nat, false);
       (0, 0, 1, 1, 9%nat, false); (0, 0, 1, 1, 10%nat, false)]
      (repeat (1, 1, 0.1) 10)
      0.99999999999999989 /\
  (0.99999999999999989 =? 10 * 0.1) = false.
Proof. split; vm_compute; reflexivity. Qed.

End FloatRuns.
